(** * stream_ml.pytorch: skew-normal likelihoods and the control-region prior

    A shallow embedding of

    - [stream_ml/pytorch/builtin/_skewnormal.py]: [skewnorm_logpdf],
      [log_truncation_term], [truncatedskewnorm_logpdf] and the two model
      wrappers [SkewNormal] and [TruncatedSkewNormal];
    - [stream_ml/pytorch/prior/_track.py]: [_atleast_2d] and the
      [ControlRegions] prior.

    Numbers are idealised as real numbers: a tensor element is an [R], the
    arithmetic of the formulas is exact, and [log] and [erf] come from the
    array namespace [xp] that the source passes around.  Rounding, [nan] and
    infinities are outside the model: the logarithm of a number that is not
    positive, which the array library returns as [nan] or [-inf], is the
    [ln] of the reals there.  Python exceptions are values of [Error]; a
    function that can raise returns a [result]. *)

From Stdlib Require Import Reals Lra Lia List String Bool Arith.
From stdpp Require Import base option gmap strings.
Import ListNotations.

Open Scope R_scope.

(** ** Exceptions *)

Inductive Error : Type :=
| ValueError (msg : string)
| KeyError
| IndexError
| RuntimeError
| TypeError
| NotImplementedError.

Inductive result (A : Type) : Type :=
| Ok (a : A)
| Raise (e : Error).
Arguments Ok {A} a.
Arguments Raise {A} e.

#[global] Instance result_ret : MRet result := fun _ a => Ok a.
#[global] Instance result_bind : MBind result := fun _ _ k m =>
  match m with
  | Ok a => k a
  | Raise e => Raise e
  end.

Definition of_option {A : Type} (e : Error) (o : option A) : result A :=
  match o with
  | Some a => Ok a
  | None => Raise e
  end.

(** ** The error function on the reals

    [erf x = 2 / sqrt PI * integral of exp (- t^2) for t from 0 to x]. *)

Definition gauss (t : R) : R := exp (- (t * t)).

Lemma gauss_continuity : continuity gauss.
Proof.
  unfold gauss.
  apply (continuity_comp (fun t => - (t * t)) exp).
  - apply continuity_opp. apply continuity_mult; apply derivable_continuous, derivable_id.
  - apply derivable_continuous, derivable_exp.
Qed.

Lemma gauss_integrable (a b : R) : Riemann_integrable gauss a b.
Proof.
  destruct (Rle_dec a b) as [Hab | Hab].
  - apply continuity_implies_RiemannInt; [exact Hab |].
    intros x _. apply gauss_continuity.
  - apply RiemannInt_P1.
    apply continuity_implies_RiemannInt; [lra |].
    intros x _. apply gauss_continuity.
Qed.

Definition erf (x : R) : R := 2 / sqrt PI * RiemannInt (gauss_integrable 0 x).


(** ** The array namespace

    The source is written against an array namespace [xp] and the operators
    of its array type.  [ArrayNamespace A] is that interface for an array
    type [A]: Python floats enter through [asarray], the operators are
    [add], [sub], [mul], [div] and [pow], and [xp_log], [xp_erf] and
    [xp_clip] are [xp.log], [xp.erf] and [xp.clip] with a lower bound.
    [xp_log_float] is [xp.log] called on a Python number instead of an
    array, which a namespace may or may not accept. *)

Class ArrayNamespace (A : Type) : Type := {
  asarray : R -> A;
  add : A -> A -> A;
  sub : A -> A -> A;
  mul : A -> A -> A;
  div : A -> A -> A;
  pow : A -> nat -> A;
  xp_log : A -> A;
  xp_erf : A -> A;
  xp_clip : A -> R -> A;
  xp_log_float : R -> A
}.

Declare Scope array_scope.
Delimit Scope array_scope with A.
Infix "+" := add : array_scope.
Infix "-" := sub : array_scope.
Infix "*" := mul : array_scope.
Infix "/" := div : array_scope.
Infix "**" := pow (at level 30, right associativity) : array_scope.

(** A single element: every operation is the one of the reals, and the
    logarithm of a Python number is that of the number. *)
#[global] Instance R_namespace : ArrayNamespace R := {|
  asarray x := x;
  add := Rplus;
  sub := Rminus;
  mul := Rmult;
  div := Rdiv;
  pow := Rpow_def.pow;
  xp_log := ln;
  xp_erf := erf;
  xp_clip x lo := Rmax x lo;
  xp_log_float := ln
|}.

(** ** [stream_ml/pytorch/builtin/_skewnormal.py] *)

Definition _sqrt2 : R := sqrt 2.

Section Skewnormal.
Context {A : Type} `{ArrayNamespace A}.

(** Modelled from the spec: [norm_logpdf] of
    [stream_ml/pytorch/builtin/_normal.py], which the skew-normal module
    imports; the specification gives it as
    [-0.5*((value-loc)/sigma)^2 - log(sigma) - 0.5*log(2*pi)]. *)
Definition norm_logpdf (value loc sigma : A) : A :=
  (asarray (-0.5) * ((value - loc) / sigma) ** 2
   - xp_log sigma - asarray (0.5 * ln (2 * PI)))%A.

Definition skewnorm_logpdf (value loc sigma skew : A) : A :=
  (norm_logpdf value loc sigma
   + xp_log (asarray 1 + xp_erf (skew * (value - loc) / sigma / asarray _sqrt2)))%A.

(** [skew] is accepted and not used, as in the source.  The last term is
    [xp.log(4)], the logarithm of a Python number. *)
Definition log_truncation_term (ab : A * A) (loc sigma skew : A) : A :=
  let erfa := xp_erf ((ab.1 - loc) / sigma / asarray _sqrt2)%A in
  let erfb := xp_erf ((ab.2 - loc) / sigma / asarray _sqrt2)%A in
  (xp_log (erfb - erfa) + xp_log (erfb + erfa + asarray 2) - xp_log_float 4)%A.

Definition truncatedskewnorm_logpdf (value loc sigma skew : A) (ab : A * A) : A :=
  (skewnorm_logpdf value loc sigma skew - log_truncation_term ab loc sigma skew)%A.
End Skewnormal.


(** ** Tensors

    A tensor is its shape and its elements in row-major order; a boolean
    tensor (a mask) likewise.  The operations below are the ones of the
    array library that the two modules call. *)

Record Tensor : Type := mkTensor { shape : list nat; elems : list R }.
Record Mask : Type := mkMask { mask_shape : list nat; mask_data : list bool }.

Definition numel (s : list nat) : nat := foldr Nat.mul 1%nat s.
Definition ndim (x : Tensor) : nat := length (shape x).
Definition scalar (x : R) : Tensor := mkTensor [] [x].

Definition Rsum (l : list R) : R := foldr Rplus 0 l.

(** [xp.sum(x)]: the sum of all elements. *)
Definition tensor_sum (x : Tensor) : R := Rsum (elems x).

Definition tensor_map (f : R -> R) (x : Tensor) : Tensor :=
  mkTensor (shape x) (f <$> elems x).

Definition zeros_like (x : Tensor) : Tensor := tensor_map (fun _ => 0) x.
Definition ones_like (x : Tensor) : Tensor := tensor_map (fun _ => 1) x.

(** [xp.squeeze(x)]: every dimension of size one is removed. *)
Definition squeeze (x : Tensor) : Tensor :=
  mkTensor (filter (fun d => d <> 1%nat) (shape x)) (elems x).

(** The [i]-th block of [k] consecutive elements. *)
Definition block (i k : nat) (d : list R) : list R := take k (drop (i * k) d).

(** *** Broadcasting *)

Definition broadcast_dim (a b : nat) : option nat :=
  if decide (a = b) then Some a
  else if decide (a = 1%nat) then Some b
  else if decide (b = 1%nat) then Some a
  else None.

(** Shapes are aligned at their last dimension: the arguments are the
    reversed shapes. *)
Fixpoint broadcast_rev (r1 r2 : list nat) : option (list nat) :=
  match r1, r2 with
  | [], r | r, [] => Some r
  | a :: r1', b :: r2' =>
      d ← broadcast_dim a b; r ← broadcast_rev r1' r2'; Some (d :: r)
  end.

Definition broadcast_shapes (s1 s2 : list nat) : option (list nat) :=
  reverse <$> broadcast_rev (reverse s1) (reverse s2).

(** The elements of a tensor of shape [s] seen at the broadcast shape [S]. *)
Fixpoint expand (s S : list nat) (d : list R) {struct S} : list R :=
  match S with
  | [] => d
  | n :: S' =>
      if (length s <? length S)%nat then concat (replicate n (expand s S' d))
      else match s with
           | [] => d
           | a :: s' =>
               if decide (a = n)
               then flat_map (fun i => expand s' S' (block i (numel s') d)) (seq 0 n)
               else concat (replicate n (expand s' S' d))
           end
  end.

(** The elements of [x] at the broadcast shape [S]. *)
Definition expand_to (x : Tensor) (S : list nat) : list R :=
  if decide (shape x = S) then elems x else expand (shape x) S (elems x).

(** An elementwise binary operation on the two operands broadcast to their
    common shape; a [RuntimeError] when the shapes do not broadcast. *)
Definition broadcast2 {B : Type} (f : R -> R -> B) (x y : Tensor)
  : result (list nat * list B) :=
  S ← of_option RuntimeError (broadcast_shapes (shape x) (shape y));
  Ok (S, zip_with f (expand_to x S) (expand_to y S)).

Definition binop (f : R -> R -> R) (x y : Tensor) : result Tensor :=
  r ← broadcast2 f x y; Ok (mkTensor r.1 r.2).

Definition cmpop (f : R -> R -> bool) (x y : Tensor) : result Mask :=
  r ← broadcast2 f x y; Ok (mkMask r.1 r.2).

#[global] Instance Rle_decision (x y : R) : Decision (x <= y) := Rle_dec x y.
#[global] Instance Rge_decision (x y : R) : Decision (x >= y) := Rge_dec x y.

Definition Rleb (x y : R) : bool := bool_decide (x <= y).
Definition Rgeb (x y : R) : bool := bool_decide (x >= y).

(** *** Indexing with a boolean mask *)

(** The elements of [xs] at the positions where the mask holds. *)
Fixpoint select (m : list bool) (xs : list R) : list R :=
  match m, xs with
  | b :: m', x :: xs' => if b then x :: select m' xs' else select m' xs'
  | _, _ => []
  end.

(** [base] with the positions where the mask holds overwritten, in order,
    by the elements of [vals]. *)
Fixpoint scatter (m : list bool) (base vals : list R) : list R :=
  match m, base with
  | b :: m', x :: base' =>
      if b then
        match vals with
        | v :: vals' => v :: scatter m' base' vals'
        | [] => x :: scatter m' base' []
        end
      else x :: scatter m' base' vals
  | _, _ => base
  end.

Definition count_true (m : list bool) : nat := length (filter (fun b => b = true) m).

(** [x[mask]].  The mask must have the shape of [x] (the array library also
    takes a mask with fewer dimensions than [x]; the masks of this module
    never have fewer), otherwise [IndexError]. *)
Definition mask_select (x : Tensor) (m : Mask) : result Tensor :=
  if decide (mask_shape m = shape x)
  then let sel := select (mask_data m) (elems x) in Ok (mkTensor [length sel] sel)
  else Raise IndexError.

(** [x[mask] = v]: [v] has one element per selected position, or a single
    element that fills them all. *)
Definition mask_assign (x : Tensor) (m : Mask) (v : Tensor) : result Tensor :=
  if decide (mask_shape m = shape x) then
    if decide (length (elems v) = count_true (mask_data m))
    then Ok (mkTensor (shape x) (scatter (mask_data m) (elems x) (elems v)))
    else match elems v with
         | [c] => Ok (mkTensor (shape x)
                        (scatter (mask_data m) (elems x)
                           (replicate (count_true (mask_data m)) c)))
         | _ => Raise RuntimeError
         end
  else Raise IndexError.

(** [xp.stack(ts, 1)]: tensors of one shape, joined along a new second
    dimension. *)
Definition stack1 (ts : list Tensor) : result Tensor :=
  match ts with
  | [] => Raise RuntimeError
  | t0 :: _ =>
      if forallb (fun t => bool_decide (shape t = shape t0)) ts then
        match shape t0 with
        | [] => Raise IndexError
        | n :: rest =>
            Ok (mkTensor (n :: length ts :: rest)
                  (flat_map (fun i => flat_map (fun t => block i (numel rest) (elems t)) ts)
                     (seq 0 n)))
        end
      else Raise RuntimeError
  end.

(** ** Named data and parameters

    [Data] is the named, column-oriented container of the core library: a
    two-dimensional array and one name per column.  [Params] maps a
    (coordinate name, parameter name) pair to an array. *)

Record Data : Type := mkData { array : Tensor; names : list string }.

Definition Params : Type := gmap (string * string) Tensor.

Definition index_of (n : string) (l : list string) : option nat :=
  fst <$> list_find (fun m => m = n) l.

(** [x[:, js]]: the columns [js] of every row. *)
Definition take_columns (x : Tensor) (js : list nat) : result Tensor :=
  match shape x with
  | n :: k :: rest =>
      if forallb (fun j => j <? k)%nat js then
        Ok (mkTensor (n :: length js :: rest)
              (flat_map (fun i => flat_map (fun j => block (i * k + j) (numel rest) (elems x)) js)
                 (seq 0 n)))
      else Raise IndexError
  | _ => Raise IndexError
  end.

(** [x[:, j]]: one column, without the column dimension. *)
Definition take_column (x : Tensor) (j : nat) : result Tensor :=
  match shape x with
  | n :: k :: rest =>
      if (j <? k)%nat then
        Ok (mkTensor (n :: rest)
              (flat_map (fun i => block (i * k + j) (numel rest) (elems x)) (seq 0 n)))
      else Raise IndexError
  | _ => Raise IndexError
  end.

(** [data[key]] for a column name. *)
Definition Data_getitem (d : Data) (key : string) : result Tensor :=
  j ← of_option KeyError (index_of key (names d));
  take_column (array d) j.

(** [data[keys]] for a tuple of column names. *)
Definition Data_getitems (d : Data) (keys : list string) : result Data :=
  js ← mapM (fun k => of_option KeyError (index_of k (names d))) keys;
  a ← take_columns (array d) js;
  Ok (mkData a keys).

(** ** [stream_ml/pytorch/prior/_track.py] *)

(** [_atleast_2d]: [x[None, None]] for a scalar, [x[:, None]] for a vector,
    [x] itself otherwise. *)
Definition _atleast_2d (x : Tensor) : Tensor :=
  match shape x with
  | [] => mkTensor [1; 1]%nat (elems x)
  | [n] => mkTensor [n; 1%nat] (elems x)
  | _ => x
  end.

(** The model the prior is evaluated against: [model(x)] and
    [model.unpack_params]. *)
Record ModelAPI : Type := mkModel {
  forward : Data -> Tensor;
  unpack_params : Tensor -> Params
}.

(** The [width] argument: a Python float or a [Data]. *)
Inductive Width : Type :=
| WidthFloat (w : R)
| WidthData (d : Data).

(** The prior, with the fields that [__post_init__] stores. *)
Record ControlRegions : Type := mkControlRegions {
  center : Data;
  width : Width;
  lamda : R;
  coord_name : string;
  component_param_name : string;
  _x : Data;
  _y_names : list string;
  _y : Tensor;
  _w : Tensor
}.

(** The dataclass constructor followed by [__post_init__]. *)
Definition ControlRegions_init (center : Data) (width : Width) (lamda : R)
    (coord_name component_param_name : string) : result ControlRegions :=
  x ← Data_getitems center [coord_name];
  let dep_names := filter (fun n => n <> coord_name) (names center) in
  cy ← Data_getitems center dep_names;
  let y := _atleast_2d (squeeze (array cy)) in
  w ← match width with
      | WidthData wd =>
          d ← Data_getitems wd dep_names;
          Ok (_atleast_2d (squeeze (array d)))
      | WidthFloat f => Ok (tensor_map (fun v => v * f) (ones_like y))
      end;
  Ok (mkControlRegions center width lamda coord_name component_param_name
        x dep_names y w).

(** The defaults of the dataclass fields. *)
Definition default_width : Width := WidthFloat 0.5.
Definition default_lamda : R := 0.05.
Definition default_coord_name : string := "phi1".
Definition default_component_param_name : string := "mu".

(** Lines 134 to 137 of [logpdf]: the model parameters at the control
    points, one column per dependent name. *)
Definition control_predictions (self : ControlRegions) (model : ModelAPI)
  : result Tensor :=
  let cmpars := unpack_params model (forward model (_x self)) in
  cols ← mapM (fun n => of_option KeyError
                          (cmpars !! (n, component_param_name self)))
              (_y_names self);
  stack1 cols.

(** Lines 139 to 143 of [logpdf]: the two masked assignments. *)
Definition penalties (cmp_arr y w : Tensor) : result Tensor :=
  let pdf := zeros_like cmp_arr in
  lo ← binop Rminus y w;
  where_ ← cmpop Rleb cmp_arr lo;
  c ← mask_select cmp_arr where_;
  yw ← (a ← mask_select y where_; b ← mask_select w where_; binop Rminus a b);
  v ← binop Rminus c yw;
  pdf ← mask_assign pdf where_ (tensor_map (fun e => e ^ 2) v);
  hi ← binop Rplus y w;
  where_ ← cmpop Rgeb cmp_arr hi;
  c ← mask_select cmp_arr where_;
  yw ← (a ← mask_select y where_; b ← mask_select w where_; binop Rplus a b);
  v ← binop Rminus c yw;
  mask_assign pdf where_ (tensor_map (fun e => e ^ 2) v).

Definition logpdf (self : ControlRegions) (mpars : Params) (data : Data)
    (model : ModelAPI) (current_lnpdf : option Tensor) : result R :=
  cmp_arr ← control_predictions self model;
  pdf ← penalties cmp_arr (_y self) (_w self);
  Ok (- lamda self * tensor_sum pdf).

(** What the two assignments leave at one position: the second overwrites
    the first. *)
Definition elem_penalty (p y w : R) : R :=
  if Rgeb p (y + w) then (p - (y + w)) ^ 2
  else if Rleb p (y - w) then (p - (y - w)) ^ 2
  else 0.

(** The array that the two assignments leave: one elementwise penalty per
    element of the prediction, zero where a target or a width is missing. *)
Fixpoint pen_list (cs ys ws : list R) : list R :=
  match cs, ys, ws with
  | c :: cs', y :: ys', w :: ws' => elem_penalty c y w :: pen_list cs' ys' ws'
  | _, _, _ => (fun _ => 0) <$> cs
  end.

Definition sq (e : R) : R := e ^ 2.

(** The sum of the elementwise penalties over the elements of the
    prediction [cs], with targets [ys] and widths [ws]. *)
Definition total_penalty (cs ys ws : list R) : R :=
  Rsum (zip_with (fun c yw => elem_penalty c yw.1 yw.2) cs (zip ys ws)).

(** ** The worked example of the specification

    One control point at coordinate value [10.0] whose dependent column [n]
    has the target [2.0]; [width] and [lamda] keep their defaults [0.5] and
    [0.05]. *)

Definition example_center (n : string) : Data :=
  mkData (mkTensor [1; 2]%nat [10; 2]) ["phi1"%string; n].

Definition example_prior (n : string) : ControlRegions :=
  mkControlRegions (example_center n) default_width default_lamda
    default_coord_name default_component_param_name
    (mkData (mkTensor [1; 1]%nat [10]) ["phi1"%string])
    [n] (mkTensor [1; 1]%nat [2]) (mkTensor [1; 1]%nat [0.5]).

(** A model that predicts the value [p] of the parameter [(n, "mu")] at its
    single input point, whatever the input. *)
Definition constant_model (n : string) (p : R) : ModelAPI :=
  mkModel (fun x => array x)
          (fun _ => {[ (n, "mu"%string) := mkTensor [1%nat] [p] ]}).

(** ** Tensors as an array namespace

    The operators and functions of [ArrayNamespace] on tensors, the
    namespace of this repository ([import torch as xp]): an operand is a
    tensor or the exception raised while computing it, a Python float met by
    an operator is a tensor without dimensions, and binary operators
    broadcast.  The functions of the namespace take tensors only: [xp.log]
    of a Python number raises [TypeError]. *)

Definition lift1 (f : R -> R) (a : result Tensor) : result Tensor :=
  x ← a; Ok (tensor_map f x).

Definition lift2 (f : R -> R -> R) (a b : result Tensor) : result Tensor :=
  x ← a; y ← b; binop f x y.

#[global] Instance Tensor_namespace : ArrayNamespace (result Tensor) := {|
  asarray x := Ok (scalar x);
  add := lift2 Rplus;
  sub := lift2 Rminus;
  mul := lift2 Rmult;
  div := lift2 Rdiv;
  pow a n := lift1 (fun e => e ^ n) a;
  xp_log := lift1 ln;
  xp_erf := lift1 erf;
  xp_clip a lo := lift1 (fun e => Rmax e lo) a;
  xp_log_float _ := Raise TypeError
|}.

(** ** The model wrappers of [_skewnormal.py] *)

(** The fields of the base class that the two models read: the coordinate
    names and the bounds configured for each coordinate. *)
Record ModelBase : Type := mkModelBase {
  coord_names : list string;
  coord_bounds : gmap string (R * R)
}.

Module SkewNormal.

(** [super_post_init] is [super().__post_init__()], the validation of
    the base class. *)
Definition __post_init__ (super_post_init : ModelBase -> result unit)
    (self : ModelBase) : result unit :=
  _ ← super_post_init self;
  if decide (length (coord_names self) <> 1%nat)
  then Raise (ValueError "Only one coordinate is supported, e.g ('phi2',)")
  else Ok tt.

(** The dataclass constructor: the fields are stored, then
    [__post_init__] runs. *)
Definition new (super_post_init : ModelBase -> result unit)
    (coord_names : list string) (coord_bounds : gmap string (R * R))
  : result ModelBase :=
  let self := mkModelBase coord_names coord_bounds in
  _ ← __post_init__ super_post_init self; Ok self.

Definition _net_init_default (self : ModelBase) : result unit :=
  Raise NotImplementedError.

Definition ln_likelihood (self : ModelBase) (mpars : Params) (data : Data)
  : result Tensor :=
  c ← of_option IndexError (coord_names self !! 0%nat);
  x ← Data_getitem data c;
  mu ← of_option KeyError (mpars !! (c, "mu"%string));
  sg ← of_option KeyError (mpars !! (c, "sigma"%string));
  sk ← of_option KeyError (mpars !! (c, "skew"%string));
  skewnorm_logpdf (Ok x) (Ok mu)
    (xp_clip (Ok sg) 1e-10) (xp_clip (Ok sk) 1e-10).

End SkewNormal.

Module TruncatedSkewNormal.

Definition __post_init__ (super_post_init : ModelBase -> result unit)
    (self : ModelBase) : result unit :=
  _ ← super_post_init self;
  if decide (length (coord_names self) <> 1%nat)
  then Raise (ValueError "Only one coordinate is supported, e.g ('phi2',)")
  else Ok tt.

(** The dataclass constructor: the fields are stored, then
    [__post_init__] runs. *)
Definition new (super_post_init : ModelBase -> result unit)
    (coord_names : list string) (coord_bounds : gmap string (R * R))
  : result ModelBase :=
  let self := mkModelBase coord_names coord_bounds in
  _ ← __post_init__ super_post_init self; Ok self.

Definition _net_init_default (self : ModelBase) : result unit :=
  Raise NotImplementedError.

Definition ln_likelihood (self : ModelBase) (mpars : Params) (data : Data)
  : result Tensor :=
  c ← of_option IndexError (coord_names self !! 0%nat);
  x ← Data_getitem data c;
  mu ← of_option KeyError (mpars !! (c, "mu"%string));
  sg ← of_option KeyError (mpars !! (c, "sigma"%string));
  sk ← of_option KeyError (mpars !! (c, "skew"%string));
  c0 ← of_option IndexError (coord_names self !! 0%nat);
  ab ← of_option KeyError (coord_bounds self !! c0);
  truncatedskewnorm_logpdf (Ok x) (Ok mu)
    (xp_clip (Ok sg) 1e-10) (xp_clip (Ok sk) 1e-10)
    (asarray ab.1, asarray ab.2).

End TruncatedSkewNormal.

(** ** Reading a result element by element

    [arr_at s i t v]: the computation [t] returns a tensor of shape [s]
    whose element [i] is [v].  [const_at t v]: it returns the tensor without
    dimensions that holds [v]. *)

Definition arr_at (s : list nat) (i : nat) (t : result Tensor) (v : R) : Prop :=
  exists x, t = Ok x /\ shape x = s /\ elems x !! i = Some v.

Definition const_at (t : result Tensor) (v : R) : Prop :=
  exists x, t = Ok x /\ shape x = [] /\ elems x = [v].

(** A model of the coordinate ["phi2"] with bounds [(-1, 1)], and
    parameters for one sample: [mu = 2], [sigma = 0] and [skew = 1]. *)
Definition example_model : ModelBase :=
  mkModelBase ["phi2"%string] {[ "phi2"%string := (-1, 1) ]}.

Definition example_mpars : Params :=
  {[ ("phi2", "mu")%string := mkTensor [1%nat] [2];
     ("phi2", "sigma")%string := mkTensor [1%nat] [0];
     ("phi2", "skew")%string := mkTensor [1%nat] [1] ]}.

(** Two control points at [10.0] and [20.0] with targets [2.0] and [3.0]
    for the column ["phi2"], and a model that predicts [2.0] and [4.0]
    there. *)
Definition example_track : Data :=
  mkData (mkTensor [2; 2]%nat [10; 2; 20; 3]) ["phi1"; "phi2"]%string.

Definition example_track_model : ModelAPI :=
  mkModel (fun x => array x)
          (fun _ => {[ ("phi2", "mu")%string := mkTensor [2%nat] [2; 4] ]}).

(** A tensor is well formed when it has one element per position of its
    shape; [returns_shape s t]: the computation [t] returns a well-formed
    tensor of shape [s]. *)
Definition well_formed (x : Tensor) : Prop :=
  length (elems x) = numel (shape x).

Definition returns_shape (s : list nat) (t : result Tensor) : Prop :=
  exists x, t = Ok x /\ shape x = s /\ well_formed x.
(** * Properties *)

Lemma erf_0 : erf 0 = 0.
Proof. unfold erf. rewrite RiemannInt_P9. lra. Qed.

Lemma sqrt2_neq_0 : sqrt 2 <> 0.
Proof. apply Rgt_not_eq, sqrt_lt_R0. lra. Qed.

(** ** The log-densities *)

(** C1.  For [sigma > 0], [skewnorm_logpdf] is the Gaussian log-density
    [-0.5*((value-loc)/sigma)^2 - log(sigma) - 0.5*log(2*pi)] plus
    [log(1 + erf(skew * (value - loc) / (sigma * sqrt 2)))]. *)
Theorem skewnorm_logpdf_formula (value loc sigma skew : R) :
  0 < sigma ->
  skewnorm_logpdf value loc sigma skew
  = -0.5 * ((value - loc) / sigma) ^ 2 - ln sigma - 0.5 * ln (2 * PI)
    + ln (1 + erf (skew * (value - loc) / (sigma * sqrt 2))).
Proof.
  intros Hs. unfold skewnorm_logpdf, norm_logpdf, _sqrt2. cbn.
  do 4 f_equal. field. split; [apply sqrt2_neq_0 | lra].
Qed.

(** In a namespace whose [log] accepts a Python number, as that of the
    reals does, [log_truncation_term] for [sigma > 0] is
    [log(erfb - erfa) + log(erfb + erfa + 2) - log(4)] with
    [erfa = erf((a-loc)/(sigma*sqrt 2))] and
    [erfb = erf((b-loc)/(sigma*sqrt 2))], and [truncatedskewnorm_logpdf] is
    [skewnorm_logpdf] minus that term. *)
Lemma truncatedskewnorm_logpdf_closed_form (value loc sigma skew a b : R) :
  0 < sigma ->
  let erfa := erf ((a - loc) / (sigma * sqrt 2)) in
  let erfb := erf ((b - loc) / (sigma * sqrt 2)) in
  truncatedskewnorm_logpdf value loc sigma skew (a, b)
  = skewnorm_logpdf value loc sigma skew
    - (ln (erfb - erfa) + ln (erfb + erfa + 2) - ln 4)
  /\ log_truncation_term (a, b) loc sigma skew
     = ln (erfb - erfa) + ln (erfb + erfa + 2) - ln 4.
Proof.
  intros Hs erfa erfb.
  assert (log_truncation_term (a, b) loc sigma skew
          = ln (erfb - erfa) + ln (erfb + erfa + 2) - ln 4) as E.
  { unfold log_truncation_term, erfa, erfb, _sqrt2. cbn.
    replace ((a - loc) / sigma / sqrt 2) with ((a - loc) / (sigma * sqrt 2))
      by (field; split; [lra | apply sqrt2_neq_0]).
    replace ((b - loc) / sigma / sqrt 2) with ((b - loc) / (sigma * sqrt 2))
      by (field; split; [lra | apply sqrt2_neq_0]).
    reflexivity. }
  split; [|exact E].
  unfold truncatedskewnorm_logpdf. rewrite E. reflexivity.
Qed.

(** C7.  For [sigma > 0], [skewnorm_logpdf] with [skew = 0] is
    [norm_logpdf]: the term [log(1 + erf(0))] is zero.  At [value = loc] it
    is [-log(sigma) - 0.5*log(2*pi)]. *)
Theorem skewnorm_logpdf_zero_skew (value loc sigma : R) :
  0 < sigma ->
  skewnorm_logpdf value loc sigma 0 = norm_logpdf value loc sigma
  /\ ln (1 + erf (0 * (value - loc) / sigma / _sqrt2)) = 0
  /\ skewnorm_logpdf loc loc sigma 0 = - ln sigma - 0.5 * ln (2 * PI).
Proof.
  intros Hs.
  assert (forall v, ln (1 + erf (0 * (v - loc) / sigma / _sqrt2)) = 0) as E.
  { intros v. replace (0 * (v - loc) / sigma / _sqrt2) with 0
      by (unfold Rdiv; ring).
    rewrite erf_0, Rplus_0_r. apply ln_1. }
  assert (forall v, skewnorm_logpdf v loc sigma 0 = norm_logpdf v loc sigma) as N.
  { intros v. unfold skewnorm_logpdf. cbn [add mul sub div asarray xp_log xp_erf R_namespace].
    rewrite E. lra. }
  split; [apply N|]. split; [apply E|].
  rewrite N. unfold norm_logpdf. cbn.
  replace ((loc - loc) / sigma) with 0 by (unfold Rdiv; ring). lra.
Qed.

(** ** Masks: selecting and scattering *)

Lemma select_length (m : list bool) (xs : list R) :
  (length m <= length xs)%nat -> length (select m xs) = count_true m.
Proof.
  revert xs. induction m as [|b m IH]; intros [|x xs] Hl; simpl in *; try lia; try done.
  unfold count_true in *. rewrite filter_cons.
  destruct (decide (b = true)) as [-> | Hb]; simpl.
  - by rewrite IH by lia.
  - destruct b; [done|]. apply IH. lia.
Qed.

Lemma scatter_nil_mask (base vals : list R) : scatter [] base vals = base.
Proof. by destruct base. Qed.

Lemma Rsum_zeros (cs : list R) : Rsum ((fun _ => 0) <$> cs) = 0.
Proof.
  induction cs as [|c cs IH]; [done|].
  change (0 + Rsum ((fun _ => 0) <$> cs) = 0). rewrite IH. lra.
Qed.

Lemma mask_lengths (cs ys ws : list R) :
  let m1 := zip_with Rleb cs (zip_with Rminus ys ws) in
  let m2 := zip_with Rgeb cs (zip_with Rplus ys ws) in
  (length m1 <= length cs /\ length m1 <= length ys /\ length m1 <= length ws)%nat
  /\ (length m2 <= length cs /\ length m2 <= length ys /\ length m2 <= length ws)%nat.
Proof. cbv zeta. rewrite !length_zip_with. lia. Qed.

Lemma two_assignments (cs ys ws : list R) :
  let m1 := zip_with Rleb cs (zip_with Rminus ys ws) in
  let m2 := zip_with Rgeb cs (zip_with Rplus ys ws) in
  scatter m2
    (scatter m1 ((fun _ => 0) <$> cs)
       (sq <$> zip_with Rminus (select m1 cs)
                 (zip_with Rminus (select m1 ys) (select m1 ws))))
    (sq <$> zip_with Rminus (select m2 cs)
              (zip_with Rplus (select m2 ys) (select m2 ws)))
  = pen_list cs ys ws.
Proof.
  revert ys ws. induction cs as [|c cs IH]; intros ys ws; [done|].
  destruct ys as [|y ys]; [done|].
  destruct ws as [|w ws]; [done|].
  specialize (IH ys ws). cbn zeta in *.
  cbn [zip_with select scatter fmap list_fmap pen_list].
  unfold elem_penalty.
  destruct (Rleb c (y - w)); destruct (Rgeb c (y + w));
    cbn [zip_with select scatter fmap list_fmap]; f_equal; exact IH.
Qed.

(** ** Tensor operations on operands of one shape *)

Lemma bind_Ok {A B : Type} (a : A) (k : A -> result B) : (Ok a ≫= k) = k a.
Proof. done. Qed.

Lemma broadcast_dim_same (a : nat) : broadcast_dim a a = Some a.
Proof. unfold broadcast_dim. by rewrite decide_True. Qed.

Lemma broadcast_rev_same (r : list nat) : broadcast_rev r r = Some r.
Proof.
  induction r as [|a r IH]; [done|].
  cbn [broadcast_rev]. rewrite broadcast_dim_same, IH. done.
Qed.

Lemma broadcast_shapes_same (s : list nat) : broadcast_shapes s s = Some s.
Proof.
  unfold broadcast_shapes. rewrite broadcast_rev_same. cbn.
  by rewrite reverse_involutive.
Qed.

Lemma broadcast2_same {B : Type} (f : R -> R -> B) (x y : Tensor) :
  shape x = shape y ->
  broadcast2 f x y = Ok (shape x, zip_with f (elems x) (elems y)).
Proof.
  intros E. unfold broadcast2, expand_to.
  rewrite <- E, broadcast_shapes_same. cbn. by rewrite !decide_True.
Qed.

Lemma binop_same (f : R -> R -> R) (x y : Tensor) :
  shape x = shape y ->
  binop f x y = Ok (mkTensor (shape x) (zip_with f (elems x) (elems y))).
Proof. intros E. unfold binop. by rewrite broadcast2_same. Qed.

Lemma cmpop_same (f : R -> R -> bool) (x y : Tensor) :
  shape x = shape y ->
  cmpop f x y = Ok (mkMask (shape x) (zip_with f (elems x) (elems y))).
Proof. intros E. unfold cmpop. by rewrite broadcast2_same. Qed.

Lemma mask_select_same (x : Tensor) (m : Mask) :
  mask_shape m = shape x ->
  mask_select x m
  = Ok (mkTensor [length (select (mask_data m) (elems x))]
          (select (mask_data m) (elems x))).
Proof. intros E. unfold mask_select. by rewrite decide_True. Qed.

Lemma mask_assign_same (x : Tensor) (m : Mask) (v : Tensor) :
  mask_shape m = shape x ->
  length (elems v) = count_true (mask_data m) ->
  mask_assign x m v
  = Ok (mkTensor (shape x) (scatter (mask_data m) (elems x) (elems v))).
Proof. intros E L. unfold mask_assign. by rewrite !decide_True. Qed.

Lemma mask_select_Ok (x : Tensor) (m : Mask) (r : Tensor) :
  mask_select x m = Ok r -> mask_shape m = shape x.
Proof. unfold mask_select. by destruct (decide _). Qed.

(** One masked assignment of [penalties], on operands of one shape. *)
Lemma assignment_same (f : R -> R -> R) (pdf cmp_arr y w : Tensor) (m : Mask) :
  mask_shape m = shape cmp_arr -> shape pdf = shape cmp_arr ->
  shape y = shape cmp_arr -> shape w = shape cmp_arr ->
  (length (mask_data m) <= length (elems cmp_arr))%nat ->
  (length (mask_data m) <= length (elems y))%nat ->
  (length (mask_data m) <= length (elems w))%nat ->
  (c ← mask_select cmp_arr m;
   yw ← (a ← mask_select y m; b ← mask_select w m; binop f a b);
   v ← binop Rminus c yw;
   mask_assign pdf m (tensor_map (fun e => e ^ 2) v))
  = Ok (mkTensor (shape cmp_arr)
          (scatter (mask_data m) (elems pdf)
             (sq <$> zip_with Rminus (select (mask_data m) (elems cmp_arr))
                       (zip_with f (select (mask_data m) (elems y))
                                   (select (mask_data m) (elems w)))))).
Proof.
  intros Em Ep Ey Ew Lc Ly Lw.
  rewrite !mask_select_same by congruence. rewrite !bind_Ok.
  rewrite binop_same by (cbn; by rewrite !select_length). rewrite bind_Ok.
  rewrite binop_same by (cbn; by rewrite !select_length).
  rewrite bind_Ok, mask_assign_same.
  - cbn. by rewrite Ep.
  - congruence.
  - cbn. rewrite length_fmap, !length_zip_with, !select_length by done. lia.
Qed.

Lemma assignment_same_then {B : Type} (f : R -> R -> R)
    (pdf cmp_arr y w : Tensor) (m : Mask) (k : Tensor -> result B) :
  mask_shape m = shape cmp_arr -> shape pdf = shape cmp_arr ->
  shape y = shape cmp_arr -> shape w = shape cmp_arr ->
  (length (mask_data m) <= length (elems cmp_arr))%nat ->
  (length (mask_data m) <= length (elems y))%nat ->
  (length (mask_data m) <= length (elems w))%nat ->
  (c ← mask_select cmp_arr m;
   yw ← (a ← mask_select y m; b ← mask_select w m; binop f a b);
   v ← binop Rminus c yw;
   pdf' ← mask_assign pdf m (tensor_map (fun e => e ^ 2) v);
   k pdf')
  = k (mkTensor (shape cmp_arr)
         (scatter (mask_data m) (elems pdf)
            (sq <$> zip_with Rminus (select (mask_data m) (elems cmp_arr))
                      (zip_with f (select (mask_data m) (elems y))
                                  (select (mask_data m) (elems w)))))).
Proof.
  intros Em Ep Ey Ew Lc Ly Lw.
  pose proof (assignment_same f pdf cmp_arr y w m Em Ep Ey Ew Lc Ly Lw) as E.
  destruct (mask_select cmp_arr m) as [c|]; [|done]. rewrite bind_Ok in E; rewrite bind_Ok.
  destruct (a ← mask_select y m; b ← mask_select w m; binop f a b) as [yw|]; [|done].
  rewrite bind_Ok in E; rewrite bind_Ok.
  destruct (binop Rminus c yw) as [v|]; [|done]. rewrite bind_Ok in E; rewrite bind_Ok.
  by rewrite E.
Qed.

Lemma penalties_same (cmp_arr y w : Tensor) :
  shape y = shape cmp_arr -> shape w = shape cmp_arr ->
  penalties cmp_arr y w
  = Ok (mkTensor (shape cmp_arr) (pen_list (elems cmp_arr) (elems y) (elems w))).
Proof.
  intros Ey Ew. unfold penalties. cbv zeta.
  destruct (mask_lengths (elems cmp_arr) (elems y) (elems w)) as [(L1 & L2 & L3) (L4 & L5 & L6)].
  rewrite (binop_same Rminus y w) by congruence. rewrite bind_Ok.
  rewrite (cmpop_same Rleb) by (cbn; congruence). rewrite bind_Ok.
  rewrite (assignment_same_then Rminus) by (cbn; done).
  rewrite (binop_same Rplus y w) by congruence. rewrite bind_Ok.
  rewrite (cmpop_same Rgeb) by (cbn; congruence). rewrite bind_Ok.
  rewrite (assignment_same Rplus) by (cbn; done).
  cbn [elems shape mask_data zeros_like tensor_map].
  by rewrite two_assignments.
Qed.

Lemma penalties_Ok (cmp_arr y w pdf : Tensor) :
  penalties cmp_arr y w = Ok pdf ->
  shape y = shape cmp_arr /\ shape w = shape cmp_arr.
Proof.
  unfold penalties. cbv zeta. intros E.
  destruct (binop Rminus y w) as [lo|]; [|done]. rewrite bind_Ok in E.
  destruct (cmpop Rleb cmp_arr lo) as [m|]; [|done]. rewrite bind_Ok in E.
  destruct (mask_select cmp_arr m) as [c|] eqn:Ec; [|done]. rewrite bind_Ok in E.
  destruct (mask_select y m) as [a|] eqn:Ea; [|done]. rewrite bind_Ok in E.
  destruct (mask_select w m) as [b|] eqn:Eb; [|done].
  apply mask_select_Ok in Ec, Ea, Eb. split; congruence.
Qed.

(** ** The elementwise penalty *)

Lemma Rleb_true (x y : R) : Rleb x y = true <-> x <= y.
Proof. unfold Rleb. apply bool_decide_eq_true. Qed.

Lemma Rgeb_true (x y : R) : Rgeb x y = true <-> x >= y.
Proof. unfold Rgeb. apply bool_decide_eq_true. Qed.

Lemma Rleb_false (x y : R) : Rleb x y = false <-> y < x.
Proof. unfold Rleb. rewrite bool_decide_eq_false. lra. Qed.

Lemma Rgeb_false (x y : R) : Rgeb x y = false <-> x < y.
Proof. unfold Rgeb. rewrite bool_decide_eq_false. lra. Qed.

(** Case analysis on the two comparisons of [elem_penalty]. *)
Ltac penalty_cases p y w :=
  unfold elem_penalty;
  let G := fresh "G" in let L := fresh "L" in
  destruct (Rgeb p (y + w)) eqn:G;
    [apply Rgeb_true in G | apply Rgeb_false in G];
    (destruct (Rleb p (y - w)) eqn:L;
     [apply Rleb_true in L | apply Rleb_false in L]).

Lemma elem_penalty_nonneg (p y w : R) : 0 <= elem_penalty p y w.
Proof. penalty_cases p y w; nra. Qed.

Lemma elem_penalty_inside (p y w : R) :
  y - w < p < y + w -> elem_penalty p y w = 0.
Proof. intros [H1 H2]. penalty_cases p y w; lra. Qed.

Lemma elem_penalty_above (p y w : R) :
  p >= y + w -> elem_penalty p y w = (p - (y + w)) ^ 2.
Proof. intros H1. penalty_cases p y w; lra. Qed.

Lemma elem_penalty_below (p y w : R) :
  0 <= w -> p <= y - w -> elem_penalty p y w = (p - (y - w)) ^ 2.
Proof.
  intros Hw H1. penalty_cases p y w; try lra.
  replace p with y by lra. replace w with 0 by lra. lra.
Qed.

Lemma elem_penalty_outside (p y w : R) :
  0 <= w -> p < y - w \/ y + w < p -> 0 < elem_penalty p y w.
Proof. intros Hw H1. penalty_cases p y w; nra. Qed.

Lemma elem_penalty_near_edge (p y w : R) :
  0 <= w ->
  elem_penalty p y w <= (p - (y - w)) ^ 2 /\ elem_penalty p y w <= (p - (y + w)) ^ 2.
Proof. intros Hw. penalty_cases p y w; nra. Qed.

(** A function between zero and the square of the distance to [e] is
    continuous at [e]. *)
Lemma continuity_pt_squeeze (f : R -> R) (e : R) :
  (forall x, 0 <= f x <= (x - e) ^ 2) -> continuity_pt f e.
Proof.
  intros Hf. assert (f e = 0) as H0 by (specialize (Hf e); nra).
  intros eps Heps. exists (Rmin 1 eps). split.
  - apply Rmin_pos; lra.
  - intros x [_ Hx]. simpl in Hx |- *. unfold R_dist in *. rewrite H0.
    assert (Rabs (x - e) < 1) as H1 by (eapply Rlt_le_trans; [exact Hx | apply Rmin_l]).
    assert (Rabs (x - e) < eps) as H2 by (eapply Rlt_le_trans; [exact Hx | apply Rmin_r]).
    apply Rabs_def2 in H1, H2. specialize (Hf x).
    rewrite Rminus_0_r, Rabs_right by lra. nra.
Qed.

Lemma elem_penalty_continuous_at_edges (y w : R) :
  0 <= w ->
  continuity_pt (fun p => elem_penalty p y w) (y - w)
  /\ continuity_pt (fun p => elem_penalty p y w) (y + w).
Proof.
  intros Hw. split; apply continuity_pt_squeeze; intros x;
    pose proof (elem_penalty_nonneg x y w);
    pose proof (elem_penalty_near_edge x y w Hw); lra.
Qed.

Lemma pen_list_lookup (cs ys ws : list R) (k : nat) (p t wd : R) :
  cs !! k = Some p -> ys !! k = Some t -> ws !! k = Some wd ->
  pen_list cs ys ws !! k = Some (elem_penalty p t wd).
Proof.
  revert ys ws k. induction cs as [|c cs IH]; intros [|y ys] [|w ws] [|k]; try done.
  - cbn. congruence.
  - cbn. apply IH.
Qed.

Lemma Rsum_pen_list (cs ys ws : list R) :
  Rsum (pen_list cs ys ws) = total_penalty cs ys ws.
Proof.
  unfold total_penalty.
  revert ys ws. induction cs as [|c cs IH]; intros ys ws; [done|].
  destruct ys as [|y ys]; [apply Rsum_zeros|].
  destruct ws as [|w ws]; [apply Rsum_zeros|].
  cbn [pen_list zip zip_with Rsum foldr fst snd]. f_equal. apply IH.
Qed.

Lemma total_penalty_nonneg (cs ys ws : list R) : 0 <= total_penalty cs ys ws.
Proof.
  rewrite <- Rsum_pen_list.
  revert ys ws. induction cs as [|c cs IH]; intros ys ws; [cbn; lra|].
  destruct ys as [|y ys];
    [apply Req_le; symmetry; exact (Rsum_zeros (c :: cs))|].
  destruct ws as [|w ws];
    [apply Req_le; symmetry; exact (Rsum_zeros (c :: cs))|].
  cbn [pen_list Rsum foldr].
  pose proof (elem_penalty_nonneg c y w). specialize (IH ys ws).
  unfold Rsum in IH. lra.
Qed.

(** ** [ControlRegions.logpdf] *)

Lemma logpdf_Ok (self : ControlRegions) (mpars : Params) (data : Data)
    (model : ModelAPI) (current_lnpdf : option Tensor) (v : R) :
  logpdf self mpars data model current_lnpdf = Ok v ->
  exists cmp_arr,
    control_predictions self model = Ok cmp_arr
    /\ shape (_y self) = shape cmp_arr /\ shape (_w self) = shape cmp_arr
    /\ v = - lamda self
           * total_penalty (elems cmp_arr) (elems (_y self))
               (elems (_w self)).
Proof.
  unfold logpdf. intros E.
  destruct (control_predictions self model) as [cmp_arr|]; [|done].
  rewrite bind_Ok in E.
  destruct (penalties cmp_arr (_y self) (_w self)) as [pdf|] eqn:Ep; [|done].
  rewrite bind_Ok in E.
  destruct (penalties_Ok _ _ _ _ Ep) as [Ey Ew].
  rewrite penalties_same in Ep by done.
  exists cmp_arr. repeat split; try done.
  injection Ep as <-. injection E as <-.
  unfold tensor_sum. cbn [elems]. by rewrite Rsum_pen_list.
Qed.

Lemma logpdf_same (self : ControlRegions) (mpars : Params) (data : Data)
    (model : ModelAPI) (current_lnpdf : option Tensor) (cmp_arr : Tensor) :
  control_predictions self model = Ok cmp_arr ->
  shape (_y self) = shape cmp_arr -> shape (_w self) = shape cmp_arr ->
  logpdf self mpars data model current_lnpdf
  = Ok (- lamda self
        * total_penalty (elems cmp_arr) (elems (_y self))
            (elems (_w self))).
Proof.
  intros Ec Ey Ew. unfold logpdf. rewrite Ec, bind_Ok.
  rewrite penalties_same, bind_Ok by done.
  unfold tensor_sum. cbn [elems]. by rewrite Rsum_pen_list.
Qed.

(** C3 (as amended: for a width that is not negative).  Whenever
    [penalties] returns, its entry at a position where the prediction is
    [p], the target [t] and the width [wd >= 0] is the elementwise penalty,
    which is [0] for [t - wd < p < t + wd], [(p - (t - wd))^2] for
    [p <= t - wd] and [(p - (t + wd))^2] for [p >= t + wd]; it is positive
    strictly outside the band, [0] at both edges and continuous there. *)
Theorem penalty_piecewise (cmp_arr y w pdf : Tensor) (k : nat) (p t wd : R) :
  penalties cmp_arr y w = Ok pdf ->
  elems cmp_arr !! k = Some p -> elems y !! k = Some t -> elems w !! k = Some wd ->
  0 <= wd ->
  exists q,
    elems pdf !! k = Some q
    /\ q = elem_penalty p t wd
    /\ (t - wd < p < t + wd -> q = 0)
    /\ (p <= t - wd -> q = (p - (t - wd)) ^ 2)
    /\ (p >= t + wd -> q = (p - (t + wd)) ^ 2)
    /\ (p < t - wd \/ t + wd < p -> 0 < q)
    /\ (p = t - wd \/ p = t + wd -> q = 0)
    /\ continuity_pt (fun p' => elem_penalty p' t wd) (t - wd)
    /\ continuity_pt (fun p' => elem_penalty p' t wd) (t + wd).
Proof.
  intros Ep Hc Hy Hw Hwd.
  destruct (penalties_Ok _ _ _ _ Ep) as [Ey Ew].
  rewrite penalties_same in Ep by done. injection Ep as <-.
  exists (elem_penalty p t wd). cbn [elems].
  split; [by apply pen_list_lookup|]. split; [done|].
  split; [apply elem_penalty_inside|].
  split; [by apply elem_penalty_below|].
  split; [apply elem_penalty_above|].
  split; [by apply elem_penalty_outside|].
  split.
  - intros [-> | ->]; [rewrite elem_penalty_below | rewrite elem_penalty_above]; lra.
  - by apply elem_penalty_continuous_at_edges.
Qed.

(** C4.  Every value that [logpdf] returns is [-lamda] times the sum of the
    elementwise penalties over the elements of the stacked predictions
    [cmp_arr]; [logpdf] returns that value whenever the stored targets and
    widths have the shape of [cmp_arr]; and with [lamda = 0] every value it
    returns is [0]. *)
Theorem logpdf_weighted_sum (self : ControlRegions) (mpars : Params) (data : Data)
    (model : ModelAPI) (current_lnpdf : option Tensor) :
  (forall v, logpdf self mpars data model current_lnpdf = Ok v ->
     exists cmp_arr,
       control_predictions self model = Ok cmp_arr
       /\ v = - lamda self
              * total_penalty (elems cmp_arr) (elems (_y self)) (elems (_w self)))
  /\ (forall cmp_arr,
        control_predictions self model = Ok cmp_arr ->
        shape (_y self) = shape cmp_arr -> shape (_w self) = shape cmp_arr ->
        logpdf self mpars data model current_lnpdf
        = Ok (- lamda self
              * total_penalty (elems cmp_arr) (elems (_y self)) (elems (_w self))))
  /\ (lamda self = 0 ->
      forall v, logpdf self mpars data model current_lnpdf = Ok v -> v = 0).
Proof.
  split; [|split].
  - intros v E. apply logpdf_Ok in E as (c & Ec & _ & _ & ->). by exists c.
  - intros c Ec Ey Ew. by apply logpdf_same.
  - intros Hl v E. apply logpdf_Ok in E as (c & _ & _ & _ & ->).
    rewrite Hl. lra.
Qed.

(** C9.  [logpdf] returns the same result for any two values of
    [current_lnpdf], [None] included: the argument does not enter the
    result. *)
Theorem logpdf_ignores_current_lnpdf (self : ControlRegions) (mpars : Params)
    (data : Data) (model : ModelAPI) (c1 c2 : option Tensor) :
  logpdf self mpars data model c1 = logpdf self mpars data model c2
  /\ logpdf self mpars data model c1 = logpdf self mpars data model None.
Proof. split; reflexivity. Qed.

(** C10.  With [lamda >= 0] every value that [logpdf] returns is at most
    [0], and it does return such a value when the stored targets and widths
    have the shape of the predictions: each elementwise penalty is
    non-negative and so is their sum. *)
Theorem logpdf_nonpositive (self : ControlRegions) (mpars : Params) (data : Data)
    (model : ModelAPI) (current_lnpdf : option Tensor) :
  0 <= lamda self ->
  (forall v, logpdf self mpars data model current_lnpdf = Ok v -> v <= 0)
  /\ (forall cmp_arr,
        control_predictions self model = Ok cmp_arr ->
        shape (_y self) = shape cmp_arr -> shape (_w self) = shape cmp_arr ->
        exists v, logpdf self mpars data model current_lnpdf = Ok v /\ v <= 0)
  /\ (forall p y w, 0 <= elem_penalty p y w)
  /\ (forall cs ys ws, 0 <= total_penalty cs ys ws).
Proof.
  intros Hl.
  assert (forall v, logpdf self mpars data model current_lnpdf = Ok v -> v <= 0) as Hv.
  { intros v E. apply logpdf_Ok in E as (c & _ & _ & _ & ->).
    pose proof (total_penalty_nonneg (elems c) (elems (_y self)) (elems (_w self))).
    nra. }
  split; [exact Hv|]. split.
  - intros c Ec Ey Ew. eexists. split; [by apply logpdf_same|].
    apply Hv. by apply logpdf_same.
  - split; [apply elem_penalty_nonneg | apply total_penalty_nonneg].
Qed.

(** ** The worked example *)

Lemma index_of_here (n : string) (l : list string) :
  index_of n (n :: l) = Some 0%nat.
Proof. unfold index_of. cbn. by rewrite decide_True. Qed.

Lemma index_of_later (n m : string) (l : list string) :
  m <> n -> index_of n (m :: l) = S <$> index_of n l.
Proof.
  intros Hm. unfold index_of. cbn. rewrite decide_False by done.
  by destruct (list_find _ l) as [[i x]|].
Qed.

Lemma example_init (n : string) :
  n <> "phi1"%string ->
  ControlRegions_init (example_center n) default_width default_lamda
    default_coord_name default_component_param_name
  = Ok (example_prior n).
Proof.
  intros Hn.
  unfold ControlRegions_init, example_center, Data_getitems, default_coord_name.
  cbn [names array].
  rewrite filter_cons_False by (intros H; by apply H).
  rewrite filter_cons_True by done. rewrite filter_nil.
  cbn [mapM]. rewrite index_of_here, index_of_later, index_of_here by done.
  cbn. unfold example_prior, example_center, default_coord_name.
  change (_atleast_2d (squeeze (mkTensor [1; 1]%nat [2])))
    with (mkTensor [1; 1]%nat [2]).
  unfold ones_like, tensor_map. cbn [shape elems fmap list_fmap].
  replace (1 * 0.5) with 0.5 by lra. reflexivity.
Qed.

Lemma example_predictions (n : string) (model : ModelAPI) (p : R) :
  unpack_params model (forward model (_x (example_prior n))) !! (n, "mu"%string)
  = Some (mkTensor [1%nat] [p]) ->
  control_predictions (example_prior n) model = Ok (mkTensor [1; 1]%nat [p]).
Proof.
  unfold control_predictions.
  set (cmpars := unpack_params model (forward model (_x (example_prior n)))).
  intros E. cbv zeta.
  cbn [_y_names example_prior component_param_name mapM].
  unfold default_component_param_name. rewrite E. reflexivity.
Qed.

Lemma example_logpdf (n : string) (model : ModelAPI) (mpars : Params)
    (data : Data) (current_lnpdf : option Tensor) (p : R) :
  unpack_params model (forward model (_x (example_prior n))) !! (n, "mu"%string)
  = Some (mkTensor [1%nat] [p]) ->
  logpdf (example_prior n) mpars data model current_lnpdf
  = Ok (- 0.05 * (elem_penalty p 2 0.5 + 0)).
Proof.
  intros E. apply example_predictions in E.
  rewrite (logpdf_same _ mpars data model current_lnpdf _ E) by done.
  f_equal. unfold total_penalty.
  cbn [example_prior lamda _y _w elems zip zip_with Rsum foldr fst snd].
  unfold default_lamda. lra.
Qed.

(** C8.  The prior built from one control point at [10.0] with target
    [2.0], width [0.5] and [lamda = 0.05]: [logpdf] returns [0] when the
    model predicts [2.0] there; when it predicts [3.0] the penalty at the
    point is [(3.0 - 2.5)^2 = 0.25] and [logpdf] returns
    [-0.05 * 0.25 = -0.0125]. *)
Theorem control_region_example (n : string) (model : ModelAPI) (mpars : Params)
    (data : Data) (current_lnpdf : option Tensor) :
  n <> "phi1"%string ->
  let self := example_prior n in
  let prediction := unpack_params model (forward model (_x self)) !! (n, "mu"%string) in
  ControlRegions_init (example_center n) (WidthFloat 0.5) 0.05 "phi1" "mu" = Ok self
  /\ (prediction = Some (mkTensor [1%nat] [2]) ->
      logpdf self mpars data model current_lnpdf = Ok 0)
  /\ (prediction = Some (mkTensor [1%nat] [3]) ->
      penalties (mkTensor [1; 1]%nat [3]) (_y self) (_w self)
      = Ok (mkTensor [1; 1]%nat [(3 - 2.5) ^ 2])
      /\ (3 - 2.5) ^ 2 = 0.25
      /\ logpdf self mpars data model current_lnpdf = Ok (-0.0125)).
Proof.
  intros Hn self prediction. subst self prediction.
  split; [by apply example_init|]. split.
  - intros E. rewrite (example_logpdf n model mpars data current_lnpdf 2 E).
    f_equal. rewrite elem_penalty_inside; lra.
  - intros E. split; [|split; [lra|]].
    + rewrite penalties_same by done. cbn. do 3 f_equal.
      rewrite elem_penalty_above; lra.
    + rewrite (example_logpdf n model mpars data current_lnpdf 3 E).
      f_equal. rewrite elem_penalty_above; lra.
Qed.

(** ** Broadcasting a tensor without dimensions *)

Lemma broadcast_rev_nil_r (r : list nat) : broadcast_rev r [] = Some r.
Proof. by destruct r. Qed.

Lemma broadcast_shapes_nil_r (s : list nat) : broadcast_shapes s [] = Some s.
Proof.
  unfold broadcast_shapes. rewrite reverse_nil, broadcast_rev_nil_r. cbn.
  by rewrite reverse_involutive.
Qed.

Lemma broadcast_shapes_nil_l (s : list nat) : broadcast_shapes [] s = Some s.
Proof.
  unfold broadcast_shapes. rewrite reverse_nil. cbn.
  by rewrite reverse_involutive.
Qed.

Lemma concat_replicate_replicate (n m : nat) (v : R) :
  concat (replicate n (replicate m v)) = replicate (n * m) v.
Proof.
  induction n as [|n IH]; [done|].
  cbn [replicate concat]. rewrite IH, <- replicate_add. done.
Qed.

Lemma expand_scalar (s : list nat) (v : R) :
  expand [] s [v] = replicate (numel s) v.
Proof.
  induction s as [|n s IH]; [done|].
  cbn [expand length Nat.ltb Nat.leb numel foldr]. rewrite IH.
  apply concat_replicate_replicate.
Qed.

Lemma expand_to_scalar (y : Tensor) (s : list nat) (v : R) :
  shape y = [] -> elems y = [v] -> expand_to y s = replicate (numel s) v.
Proof.
  intros Es Ee. unfold expand_to. rewrite Es, Ee.
  destruct (decide ([] = s)) as [<- | _]; [done | apply expand_scalar].
Qed.

Lemma expand_to_same (x : Tensor) : expand_to x (shape x) = elems x.
Proof. unfold expand_to. by rewrite decide_True. Qed.

(** ** The operators on tensors, element by element *)

Lemma arr_at_lift1 (f : R -> R) s i t v :
  arr_at s i t v -> arr_at s i (lift1 f t) (f v).
Proof.
  intros (x & -> & Es & Ei). exists (tensor_map f x). split; [done|].
  split; [done|]. cbn. by rewrite list_lookup_fmap, Ei.
Qed.

Lemma const_at_lift1 (f : R -> R) t v :
  const_at t v -> const_at (lift1 f t) (f v).
Proof.
  intros (x & -> & Es & Ee). exists (tensor_map f x). split; [done|].
  split; [done|]. cbn. by rewrite Ee.
Qed.

Lemma const_at_scalar (c : R) : const_at (Ok (scalar c)) c.
Proof. by exists (scalar c). Qed.

Lemma arr_at_lift2 (f : R -> R -> R) s i a b va vb :
  arr_at s i a va -> arr_at s i b vb -> arr_at s i (lift2 f a b) (f va vb).
Proof.
  intros (x & -> & Ex & Hx) (y & -> & Ey & Hy).
  unfold lift2. rewrite !bind_Ok, binop_same by congruence.
  eexists. split; [done|]. split; [done|].
  cbn. by rewrite lookup_zip_with, Hx, Hy.
Qed.

Lemma arr_at_lift2_const_r (f : R -> R -> R) s i a b va vb :
  (i < numel s)%nat ->
  arr_at s i a va -> const_at b vb -> arr_at s i (lift2 f a b) (f va vb).
Proof.
  intros Hi (x & -> & Ex & Hx) (y & -> & Ey & Hy).
  unfold lift2, binop, broadcast2. rewrite !bind_Ok.
  rewrite Ex, Ey, broadcast_shapes_nil_r. cbn.
  eexists. split; [done|]. split; [done|]. cbn.
  rewrite <- Ex at 1. rewrite expand_to_same, (expand_to_scalar y s vb) by done.
  by rewrite lookup_zip_with, Hx, lookup_replicate_2.
Qed.

Lemma arr_at_lift2_const_l (f : R -> R -> R) s i a b va vb :
  (i < numel s)%nat ->
  const_at a va -> arr_at s i b vb -> arr_at s i (lift2 f a b) (f va vb).
Proof.
  intros Hi (x & -> & Ex & Hx) (y & -> & Ey & Hy).
  unfold lift2, binop, broadcast2. rewrite !bind_Ok.
  rewrite Ex, Ey, broadcast_shapes_nil_l. cbn.
  eexists. split; [done|]. split; [done|]. cbn.
  rewrite <- Ey at 2. rewrite expand_to_same, (expand_to_scalar x s va) by done.
  by rewrite lookup_zip_with, Hy, lookup_replicate_2.
Qed.

Lemma arr_at_pow (n : nat) s i t v :
  arr_at s i t v -> arr_at s i (lift1 (fun e => e ^ n) t) (v ^ n).
Proof. apply (arr_at_lift1 (fun e => e ^ n)). Qed.

(** Reads an expression over tensors element by element, choosing the
    lemma by the form of the operands. *)
Ltac elementwise :=
  repeat match goal with
  | |- const_at (Ok (scalar _)) _ => apply const_at_scalar
  | |- const_at (lift1 _ _) _ => apply const_at_lift1
  | |- arr_at _ _ (lift1 (fun e => e ^ _) _) _ => apply arr_at_pow
  | |- arr_at _ _ (lift1 _ _) _ => apply arr_at_lift1
  | |- arr_at _ _ (lift2 _ (Ok (scalar _)) _) _ =>
      apply arr_at_lift2_const_l; [assumption | |]
  | |- arr_at _ _ (lift2 _ _ (Ok (scalar _))) _ =>
      apply arr_at_lift2_const_r; [assumption | |]
  | |- arr_at _ _ (lift2 _ _ (lift1 _ (Ok (scalar _)))) _ =>
      apply arr_at_lift2_const_r; [assumption | |]
  | |- arr_at _ _ (lift2 _ _ _) _ => apply arr_at_lift2
  | |- _ => assumption
  end.

(** On arrays of one shape, [skewnorm_logpdf] computes at every index the
    log-density of the elements at that index. *)
Lemma skewnorm_logpdf_elementwise s i (value loc sigma skew : result Tensor)
    (v l sg sk : R) :
  (i < numel s)%nat ->
  arr_at s i value v -> arr_at s i loc l ->
  arr_at s i sigma sg -> arr_at s i skew sk ->
  arr_at s i (skewnorm_logpdf value loc sigma skew) (skewnorm_logpdf v l sg sk).
Proof.
  intros Hi Hv Hl Hsg Hsk. unfold skewnorm_logpdf, norm_logpdf.
  cbn [add sub mul div pow xp_log xp_erf asarray Tensor_namespace R_namespace].
  elementwise.
Qed.

Lemma returns_shape_lift1 (f : R -> R) s t :
  returns_shape s t -> returns_shape s (lift1 f t).
Proof.
  intros (x & -> & Es & Hw). exists (tensor_map f x). split; [done|].
  split; [done|]. unfold well_formed in *. cbn. by rewrite length_fmap.
Qed.

Lemma returns_shape_lift2 (f : R -> R -> R) s a b :
  returns_shape s a -> returns_shape s b -> returns_shape s (lift2 f a b).
Proof.
  intros (x & -> & Ex & Hx) (y & -> & Ey & Hy).
  unfold lift2. rewrite !bind_Ok, binop_same by congruence.
  eexists. split; [done|]. split; [done|]. unfold well_formed in *. cbn [elems shape tensor_map].
  rewrite length_zip_with, Hx, Hy, Ex, Ey. lia.
Qed.

Lemma returns_shape_lift2_const_r (f : R -> R -> R) s a b vb :
  returns_shape s a -> const_at b vb -> returns_shape s (lift2 f a b).
Proof.
  intros (x & -> & Ex & Hx) (y & -> & Ey & Hy).
  unfold lift2, binop, broadcast2. rewrite !bind_Ok.
  rewrite Ex, Ey, broadcast_shapes_nil_r. cbn.
  eexists. split; [done|]. split; [done|]. unfold well_formed in *. cbn [elems shape tensor_map].
  rewrite <- Ex at 1. rewrite expand_to_same, (expand_to_scalar y s vb) by done.
  rewrite length_zip_with, length_replicate, Hx, Ex. lia.
Qed.

Lemma returns_shape_lift2_const_l (f : R -> R -> R) s a b va :
  const_at a va -> returns_shape s b -> returns_shape s (lift2 f a b).
Proof.
  intros (x & -> & Ex & Hx) (y & -> & Ey & Hy).
  unfold lift2, binop, broadcast2. rewrite !bind_Ok.
  rewrite Ex, Ey, broadcast_shapes_nil_l. cbn.
  eexists. split; [done|]. split; [done|]. unfold well_formed in *. cbn [elems shape tensor_map].
  rewrite <- Ey at 2. rewrite expand_to_same, (expand_to_scalar x s va) by done.
  rewrite length_zip_with, length_replicate, Hy, Ey. lia.
Qed.

(** Follows the shape of an expression over tensors, choosing the lemma by
    the form of the operands. *)
Ltac shapewise :=
  repeat match goal with
  | |- const_at (Ok (scalar _)) _ => apply const_at_scalar
  | |- const_at (lift1 _ _) _ => eapply const_at_lift1
  | |- returns_shape _ (lift1 _ _) => apply returns_shape_lift1
  | |- returns_shape _ (lift2 _ (Ok (scalar _)) _) =>
      eapply returns_shape_lift2_const_l
  | |- returns_shape _ (lift2 _ _ (Ok (scalar _))) =>
      eapply returns_shape_lift2_const_r
  | |- returns_shape _ (lift2 _ _ (lift1 _ (Ok (scalar _)))) =>
      eapply returns_shape_lift2_const_r
  | |- returns_shape _ (lift2 _ _ _) => apply returns_shape_lift2
  | |- _ => assumption
  end.

Lemma skewnorm_logpdf_returns_shape s (value loc sigma skew : result Tensor) :
  returns_shape s value -> returns_shape s loc ->
  returns_shape s sigma -> returns_shape s skew ->
  returns_shape s (skewnorm_logpdf value loc sigma skew).
Proof.
  intros Hv Hl Hsg Hsk. unfold skewnorm_logpdf, norm_logpdf.
  cbn [add sub mul div pow xp_log xp_erf asarray Tensor_namespace].
  shapewise.
Qed.

(** ** The truncated density on tensors

    The last operand of [log_truncation_term] is [xp.log(4)], which raises:
    the term, and the density that subtracts it, return nothing. *)

Lemma lift2_Raise_r (f : R -> R -> R) (a : result Tensor) (e : Error) :
  exists e', lift2 f a (Raise e) = Raise e'.
Proof. destruct a as [x|e0]; cbn; eauto. Qed.

Lemma lift2_Ok_Raise (f : R -> R -> R) s (a : result Tensor) (e : Error) :
  returns_shape s a -> lift2 f a (Raise e) = Raise e.
Proof. by intros (x & -> & _). Qed.

Lemma log_truncation_term_never_returns (ab : result Tensor * result Tensor)
    (loc sigma skew : result Tensor) :
  exists e, log_truncation_term ab loc sigma skew = Raise e.
Proof.
  unfold log_truncation_term. cbv zeta.
  cbn [sub xp_log_float Tensor_namespace]. apply lift2_Raise_r.
Qed.

Lemma truncatedskewnorm_logpdf_never_returns
    (value loc sigma skew : result Tensor) (ab : result Tensor * result Tensor) :
  exists e, truncatedskewnorm_logpdf value loc sigma skew ab = Raise e.
Proof.
  unfold truncatedskewnorm_logpdf.
  destruct (log_truncation_term_never_returns ab loc sigma skew) as [e ->].
  cbn [sub Tensor_namespace]. apply lift2_Raise_r.
Qed.

Lemma log_truncation_term_TypeError s (loc sigma skew : result Tensor) (a b : R) :
  returns_shape s loc -> returns_shape s sigma ->
  log_truncation_term (asarray a, asarray b) loc sigma skew = Raise TypeError.
Proof.
  intros Hl Hsg. unfold log_truncation_term. cbv zeta.
  cbn [add sub mul div pow xp_log xp_erf xp_log_float asarray Tensor_namespace
       fst snd].
  apply (lift2_Ok_Raise Rminus s). shapewise.
Qed.

Lemma truncatedskewnorm_logpdf_TypeError s
    (value loc sigma skew : result Tensor) (a b : R) :
  returns_shape s value -> returns_shape s loc ->
  returns_shape s sigma -> returns_shape s skew ->
  truncatedskewnorm_logpdf value loc sigma skew (asarray a, asarray b)
  = Raise TypeError.
Proof.
  intros Hv Hl Hsg Hsk. unfold truncatedskewnorm_logpdf.
  rewrite (log_truncation_term_TypeError s) by done.
  apply (lift2_Ok_Raise Rminus s). by apply skewnorm_logpdf_returns_shape.
Qed.

(** C2.  With the tensors of this repository, [log_truncation_term] and
    [truncatedskewnorm_logpdf] return no value, whatever the arguments: the
    last operand of the truncation term, [xp.log(4)], raises.  For
    well-formed [value], [loc], [sigma] and [skew] of one shape and bounds
    [(a, b)] given as numbers, everything before that operand evaluates and
    both raise [TypeError], where the claim has the density minus
    [log(erfb - erfa) + log(erfb + erfa + 2) - log(4)]. *)
Theorem truncatedskewnorm_logpdf_raises (value loc sigma skew : result Tensor) :
  (forall ab, exists e, log_truncation_term ab loc sigma skew = Raise e)
  /\ (forall ab, exists e,
        truncatedskewnorm_logpdf value loc sigma skew ab = Raise e)
  /\ (forall s a b,
        returns_shape s value -> returns_shape s loc ->
        returns_shape s sigma -> returns_shape s skew ->
        log_truncation_term (asarray a, asarray b) loc sigma skew
        = Raise TypeError
        /\ truncatedskewnorm_logpdf value loc sigma skew (asarray a, asarray b)
           = Raise TypeError).
Proof.
  split; [intros ab; apply log_truncation_term_never_returns|].
  split; [intros ab; apply truncatedskewnorm_logpdf_never_returns|].
  intros s a b Hv Hl Hsg Hsk. split.
  - by apply (log_truncation_term_TypeError s).
  - by apply (truncatedskewnorm_logpdf_TypeError s).
Qed.

Lemma arr_at_clip (lo : R) s i (t : Tensor) (v : R) :
  shape t = s -> elems t !! i = Some v ->
  arr_at s i (xp_clip (Ok t) lo) (Rmax v lo).
Proof.
  intros Es Ei. apply (arr_at_lift1 (fun e => Rmax e lo)). by exists t.
Qed.

Lemma clip_at_least (lo : R) (t : Tensor) :
  Forall (fun e => lo <= e) (elems (tensor_map (fun e => Rmax e lo) t)).
Proof.
  cbn. apply Forall_fmap, Forall_forall. intros e _. cbn. apply Rmax_r.
Qed.

(** ** The model wrappers *)

(** C5.  With [c] the configured coordinate, [x] the data column of [c]
    and [mu], [sg], [sk] the parameters [(c, "mu")], [(c, "sigma")],
    [(c, "skew")]: [SkewNormal.ln_likelihood] is [skewnorm_logpdf] of [x]
    with [loc = mu] and with [sg] and [sk] clipped to at least [1e-10], and
    on arrays of one shape its element at every index is the log-density of
    the elements at that index.  [TruncatedSkewNormal.ln_likelihood] passes
    the same arguments and the bound configured for [c] to
    [truncatedskewnorm_logpdf], and with it returns no value: on well-formed
    arrays of one shape it raises [TypeError]. *)
Theorem ln_likelihood_arguments (self : ModelBase) (mpars : Params) (data : Data)
    (c : string) (x mu sg sk : Tensor) :
  coord_names self !! 0%nat = Some c ->
  Data_getitem data c = Ok x ->
  mpars !! (c, "mu"%string) = Some mu ->
  mpars !! (c, "sigma"%string) = Some sg ->
  mpars !! (c, "skew"%string) = Some sk ->
  let sigma := tensor_map (fun e => Rmax e 1e-10) sg in
  let skew := tensor_map (fun e => Rmax e 1e-10) sk in
  SkewNormal.ln_likelihood self mpars data
  = skewnorm_logpdf (Ok x) (Ok mu) (Ok sigma) (Ok skew)
  /\ Forall (fun e => 1e-10 <= e) (elems sigma)
  /\ Forall (fun e => 1e-10 <= e) (elems skew)
  /\ (forall s i xi mi si ki,
        shape x = s -> shape mu = s -> shape sg = s -> shape sk = s ->
        (i < numel s)%nat ->
        elems x !! i = Some xi -> elems mu !! i = Some mi ->
        elems sg !! i = Some si -> elems sk !! i = Some ki ->
        arr_at s i (SkewNormal.ln_likelihood self mpars data)
          (skewnorm_logpdf xi mi (Rmax si 1e-10) (Rmax ki 1e-10)))
  /\ (forall a b, coord_bounds self !! c = Some (a, b) ->
      TruncatedSkewNormal.ln_likelihood self mpars data
      = truncatedskewnorm_logpdf (Ok x) (Ok mu) (Ok sigma) (Ok skew)
          (Ok (scalar a), Ok (scalar b))
      /\ (exists e, TruncatedSkewNormal.ln_likelihood self mpars data = Raise e)
      /\ (forall s,
            shape x = s -> shape mu = s -> shape sg = s -> shape sk = s ->
            well_formed x -> well_formed mu ->
            well_formed sg -> well_formed sk ->
            TruncatedSkewNormal.ln_likelihood self mpars data
            = Raise TypeError)).
Proof.
  intros Hc Hx Hmu Hsg Hsk sigma skew.
  assert (SkewNormal.ln_likelihood self mpars data
          = skewnorm_logpdf (Ok x) (Ok mu) (Ok sigma) (Ok skew)) as E1.
  { unfold SkewNormal.ln_likelihood. rewrite Hc. cbn [of_option].
    rewrite bind_Ok, Hx, bind_Ok, Hmu, Hsg, Hsk. reflexivity. }
  assert (forall a b, coord_bounds self !! c = Some (a, b) ->
      TruncatedSkewNormal.ln_likelihood self mpars data
      = truncatedskewnorm_logpdf (Ok x) (Ok mu) (Ok sigma) (Ok skew)
          (Ok (scalar a), Ok (scalar b))) as E2.
  { intros a b Hb. unfold TruncatedSkewNormal.ln_likelihood.
    rewrite Hc. cbn [of_option].
    rewrite bind_Ok, Hx, bind_Ok, Hmu, Hsg, Hsk. cbn [of_option].
    rewrite !bind_Ok, Hb. reflexivity. }
  split; [exact E1|].
  split; [apply clip_at_least|]. split; [apply clip_at_least|].
  split.
  - intros s i xi mi si ki Ex Em Es Ek Hi Hxi Hmi Hsi Hki.
    assert (arr_at s i (Ok x) xi) as Ax by by exists x.
    assert (arr_at s i (Ok mu) mi) as Am by by exists mu.
    assert (arr_at s i (Ok sigma) (Rmax si 1e-10)) as As by by apply arr_at_clip.
    assert (arr_at s i (Ok skew) (Rmax ki 1e-10)) as Ak by by apply arr_at_clip.
    rewrite E1. by apply skewnorm_logpdf_elementwise.
  - intros a b Hb. split; [by apply E2|]. rewrite (E2 a b Hb). split.
    + apply truncatedskewnorm_logpdf_never_returns.
    + intros s Ex Em Es Ek Wx Wm Ws Wk.
      apply (truncatedskewnorm_logpdf_TypeError s).
      * by exists x.
      * by exists mu.
      * apply (returns_shape_lift1 (fun e => Rmax e 1e-10) s (Ok sg)). by exists sg.
      * apply (returns_shape_lift1 (fun e => Rmax e 1e-10) s (Ok sk)). by exists sk.
Qed.

(** C6.  Constructing a [SkewNormal] or a [TruncatedSkewNormal] with a
    number of coordinate names other than one raises: the [ValueError] of
    the validation when the base class accepts the configuration.  With
    exactly one name the validation raises nothing: the construction
    succeeds when the base class accepts the configuration. *)
Theorem one_coordinate_validation (super_post_init : ModelBase -> result unit)
    (names : list string) (bounds : gmap string (R * R)) :
  let self := mkModelBase names bounds in
  let msg := "Only one coordinate is supported, e.g ('phi2',)"%string in
  (length names <> 1%nat ->
     (exists e, SkewNormal.new super_post_init names bounds = Raise e)
     /\ (exists e, TruncatedSkewNormal.new super_post_init names bounds = Raise e)
     /\ (super_post_init self = Ok tt ->
         SkewNormal.new super_post_init names bounds = Raise (ValueError msg)
         /\ TruncatedSkewNormal.new super_post_init names bounds
            = Raise (ValueError msg)))
  /\ (length names = 1%nat ->
      SkewNormal.__post_init__ super_post_init self = super_post_init self
      /\ TruncatedSkewNormal.__post_init__ super_post_init self
         = super_post_init self
      /\ (super_post_init self = Ok tt ->
          SkewNormal.new super_post_init names bounds = Ok self
          /\ TruncatedSkewNormal.new super_post_init names bounds = Ok self)).
Proof.
  intros self msg.
  unfold SkewNormal.new, TruncatedSkewNormal.new,
    SkewNormal.__post_init__, TruncatedSkewNormal.__post_init__.
  cbv zeta. fold self. cbn [coord_names self].
  split; intros Hn.
  - rewrite !decide_True by done.
    destruct (super_post_init self) as [[]|e]; cbn; eauto 10.
    repeat split; eauto. all: done.
  - rewrite !decide_False by (intros H; by apply H).
    destruct (super_post_init self) as [[]|e]; cbn; eauto 10.
    repeat split; done.
Qed.

(** ** Shapes that differ *)

(** When the stored targets or widths do not have the shape of the stacked
    predictions, [logpdf] raises. *)
Lemma logpdf_shape_mismatch (self : ControlRegions) (mpars : Params) (data : Data)
    (model : ModelAPI) (current_lnpdf : option Tensor) (cmp_arr : Tensor) :
  control_predictions self model = Ok cmp_arr ->
  shape (_y self) <> shape cmp_arr \/ shape (_w self) <> shape cmp_arr ->
  exists e, logpdf self mpars data model current_lnpdf = Raise e.
Proof.
  intros Ec Hs.
  destruct (logpdf self mpars data model current_lnpdf) as [v|e] eqn:E; [|by exists e].
  apply logpdf_Ok in E as (c & Ec' & Ey & Ew & _).
  rewrite Ec in Ec'. injection Ec' as <-. by destruct Hs.
Qed.

(** [squeeze] removes the control-point dimension of a single control
    point: with two dependent columns the stored targets have shape
    [[2; 1]], the stacked predictions have shape [[1; 2]], and [logpdf]
    raises. *)
Lemma single_point_two_columns (mpars : Params) (data : Data) (model : ModelAPI)
    (current_lnpdf : option Tensor) (p1 p2 : R) :
  let center :=
    mkData (mkTensor [1; 3]%nat [10; 2; 5]) ["phi1"; "phi2"; "pm"]%string in
  let self :=
    mkControlRegions center default_width default_lamda default_coord_name
      default_component_param_name
      (mkData (mkTensor [1; 1]%nat [10]) ["phi1"%string])
      ["phi2"; "pm"]%string
      (mkTensor [2; 1]%nat [2; 5])
      (mkTensor [2; 1]%nat [1 * 0.5; 1 * 0.5]) in
  ControlRegions_init center default_width default_lamda default_coord_name
    default_component_param_name = Ok self
  /\ (unpack_params model (forward model (_x self)) !! ("phi2", "mu")%string
      = Some (mkTensor [1%nat] [p1]) ->
      unpack_params model (forward model (_x self)) !! ("pm", "mu")%string
      = Some (mkTensor [1%nat] [p2]) ->
      control_predictions self model = Ok (mkTensor [1; 2]%nat [p1; p2])
      /\ exists e, logpdf self mpars data model current_lnpdf = Raise e).
Proof.
  intros center self. split; [reflexivity|].
  intros E1 E2.
  assert (control_predictions self model = Ok (mkTensor [1; 2]%nat [p1; p2])) as Ec.
  { unfold control_predictions.
    set (cmpars := unpack_params model (forward model (_x self))) in *.
    cbv zeta. cbn [self _y_names component_param_name mapM].
    unfold default_component_param_name. rewrite E1, E2. reflexivity. }
  split; [exact Ec|].
  eapply logpdf_shape_mismatch; [exact Ec|]. left. cbn. discriminate.
Qed.

(** ** Instances *)

Lemma skewnorm_logpdf_formula_witness :
  0 < 1
  /\ skewnorm_logpdf 1 0 1 1
     = -0.5 * ((1 - 0) / 1) ^ 2 - ln 1 - 0.5 * ln (2 * PI)
       + ln (1 + erf (1 * (1 - 0) / (1 * sqrt 2))).
Proof. split; [lra | apply (skewnorm_logpdf_formula 1 0 1 1); lra]. Defined.

Lemma truncatedskewnorm_logpdf_raises_witness :
  log_truncation_term (asarray (-1), asarray 1)
    (Ok (mkTensor [1%nat] [0])) (Ok (mkTensor [1%nat] [1]))
    (Ok (mkTensor [1%nat] [1]))
  = Raise TypeError
  /\ truncatedskewnorm_logpdf (Ok (mkTensor [1%nat] [0]))
       (Ok (mkTensor [1%nat] [0])) (Ok (mkTensor [1%nat] [1]))
       (Ok (mkTensor [1%nat] [1])) (asarray (-1), asarray 1)
     = Raise TypeError.
Proof.
  destruct (truncatedskewnorm_logpdf_raises
              (Ok (mkTensor [1%nat] [0])) (Ok (mkTensor [1%nat] [0]))
              (Ok (mkTensor [1%nat] [1])) (Ok (mkTensor [1%nat] [1])))
    as (_ & _ & H).
  apply (H [1%nat] (-1) 1); eexists; (split; [reflexivity|]); split; reflexivity.
Defined.

Lemma skewnorm_logpdf_zero_skew_witness :
  0 < 2
  /\ skewnorm_logpdf 3 1 2 0 = norm_logpdf 3 1 2
  /\ skewnorm_logpdf 1 1 2 0 = - ln 2 - 0.5 * ln (2 * PI).
Proof.
  assert (0 < 2) as H by lra. split; [exact H|].
  split; [apply (skewnorm_logpdf_zero_skew 3 1 2 H)
         | apply (skewnorm_logpdf_zero_skew 3 1 2 H)].
Defined.

(** C3, as stated for every width, fails for a negative one.  One control
    point with prediction [0.5], target [0] and width [-1]: the prediction
    is at most [target - width = 1], where the claim gives
    [(0.5 - 1)^2 = 0.25], and also at least [target + width = -1], so the
    second assignment leaves [(0.5 + 1)^2 = 2.25]. *)
Lemma penalty_negative_width :
  penalties (mkTensor [1; 1]%nat [0.5]) (mkTensor [1; 1]%nat [0])
    (mkTensor [1; 1]%nat [-1])
  = Ok (mkTensor [1; 1]%nat [2.25])
  /\ 0.5 <= 0 - -1
  /\ (0.5 - (0 - -1)) ^ 2 = 0.25
  /\ 2.25 <> 0.25.
Proof.
  split; [|lra].
  rewrite penalties_same by done. cbn [shape elems pen_list]. do 3 f_equal.
  rewrite elem_penalty_above; lra.
Qed.

Lemma penalty_piecewise_witness :
  exists q,
    q = elem_penalty 3 2 0.5 /\ q = (3 - (2 + 0.5)) ^ 2 /\ 0 < q.
Proof.
  destruct (penalty_piecewise
              (mkTensor [1; 1]%nat [3]) (mkTensor [1; 1]%nat [2])
              (mkTensor [1; 1]%nat [0.5])
              (mkTensor [1; 1]%nat (pen_list [3] [2] [0.5]))
              0%nat 3 2 0.5)
    as (q & _ & Hq & _ & _ & Habove & Hout & _).
  - by apply penalties_same.
  - reflexivity.
  - reflexivity.
  - reflexivity.
  - lra.
  - exists q. split; [exact Hq|]. split; [apply Habove; lra | apply Hout; lra].
Defined.

Lemma constant_model_prediction (n : string) (p : R) (x : Tensor) :
  unpack_params (constant_model n p) x !! (n, "mu"%string)
  = Some (mkTensor [1%nat] [p]).
Proof. cbn. apply lookup_singleton_eq. Qed.

Lemma logpdf_weighted_sum_witness :
  logpdf (example_prior "phi2") ∅ (example_center "phi2")
    (constant_model "phi2" 3) None
  = Ok (- lamda (example_prior "phi2")
        * total_penalty [3] (elems (_y (example_prior "phi2")))
            (elems (_w (example_prior "phi2")))).
Proof.
  destruct (logpdf_weighted_sum (example_prior "phi2") ∅ (example_center "phi2")
              (constant_model "phi2" 3) None) as (_ & H & _).
  apply (H (mkTensor [1; 1]%nat [3])).
  - apply example_predictions, constant_model_prediction.
  - reflexivity.
  - reflexivity.
Defined.

Lemma logpdf_nonpositive_witness :
  0 <= lamda (example_prior "phi2")
  /\ exists v,
       logpdf (example_prior "phi2") ∅ (example_center "phi2")
         (constant_model "phi2" 3) None = Ok v
       /\ v <= 0.
Proof.
  assert (0 <= lamda (example_prior "phi2")) as H
    by (cbn; unfold default_lamda; lra).
  split; [exact H|].
  destruct (logpdf_nonpositive (example_prior "phi2") ∅ (example_center "phi2")
              (constant_model "phi2" 3) None H) as (_ & H' & _).
  apply (H' (mkTensor [1; 1]%nat [3])).
  - apply example_predictions, constant_model_prediction.
  - reflexivity.
  - reflexivity.
Defined.

Lemma control_region_example_witness :
  "phi2"%string <> "phi1"%string
  /\ ControlRegions_init (example_center "phi2") (WidthFloat 0.5) 0.05 "phi1" "mu"
     = Ok (example_prior "phi2")
  /\ logpdf (example_prior "phi2") ∅ (example_center "phi2")
       (constant_model "phi2" 2) None = Ok 0
  /\ logpdf (example_prior "phi2") ∅ (example_center "phi2")
       (constant_model "phi2" 3) None = Ok (-0.0125).
Proof.
  assert ("phi2"%string <> "phi1"%string) as H by done.
  split; [exact H|].
  destruct (control_region_example "phi2" (constant_model "phi2" 2) ∅
              (example_center "phi2") None H) as (Hinit & H2 & _).
  destruct (control_region_example "phi2" (constant_model "phi2" 3) ∅
              (example_center "phi2") None H) as (_ & _ & H3).
  split; [exact Hinit|]. split.
  - apply H2, constant_model_prediction.
  - apply H3, constant_model_prediction.
Defined.

Lemma ln_likelihood_arguments_witness :
  arr_at [1%nat] 0 (SkewNormal.ln_likelihood example_model example_mpars
                      (example_center "phi2"))
    (skewnorm_logpdf 2 2 (Rmax 0 1e-10) (Rmax 1 1e-10))
  /\ TruncatedSkewNormal.ln_likelihood example_model
       (<[("phi2", "sigma")%string := mkTensor [1%nat] [1]]> example_mpars)
       (example_center "phi2")
     = Raise TypeError.
Proof.
  split.
  - destruct (ln_likelihood_arguments example_model example_mpars
                (example_center "phi2") "phi2"
                (mkTensor [1%nat] [2]) (mkTensor [1%nat] [2])
                (mkTensor [1%nat] [0]) (mkTensor [1%nat] [1]))
      as (_ & _ & _ & H & _); [reflexivity.. |].
    apply (H [1%nat] 0%nat 2 2 0 1); try reflexivity. cbn; lia.
  - destruct (ln_likelihood_arguments example_model
                (<[("phi2", "sigma")%string := mkTensor [1%nat] [1]]> example_mpars)
                (example_center "phi2") "phi2"
                (mkTensor [1%nat] [2]) (mkTensor [1%nat] [2])
                (mkTensor [1%nat] [1]) (mkTensor [1%nat] [1]))
      as (_ & _ & _ & _ & H); [reflexivity.. |].
    destruct (H (-1) 1) as (_ & _ & H'); [reflexivity|].
    apply (H' [1%nat]); reflexivity.
Defined.

Lemma one_coordinate_validation_witness :
  SkewNormal.new (fun _ => Ok tt) ["phi1"; "phi2"]%string ∅
  = Raise (ValueError "Only one coordinate is supported, e.g ('phi2',)")
  /\ TruncatedSkewNormal.new (fun _ => Ok tt) ["phi1"; "phi2"]%string ∅
     = Raise (ValueError "Only one coordinate is supported, e.g ('phi2',)")
  /\ SkewNormal.new (fun _ => Ok tt) ["phi2"%string] ∅
     = Ok (mkModelBase ["phi2"%string] ∅)
  /\ TruncatedSkewNormal.new (fun _ => Ok tt) ["phi2"%string] ∅
     = Ok (mkModelBase ["phi2"%string] ∅).
Proof.
  destruct (one_coordinate_validation (fun _ => Ok tt) ["phi1"; "phi2"]%string ∅)
    as [H2 _].
  destruct (one_coordinate_validation (fun _ => Ok tt) ["phi2"%string] ∅)
    as [_ H1].
  destruct H2 as (_ & _ & H2); [cbn; lia|].
  destruct H1 as (_ & _ & H1); [reflexivity|].
  destruct (H2 eq_refl) as [Ha Hb]. destruct (H1 eq_refl) as [Hc Hd].
  repeat split; assumption.
Defined.

(** * Further properties of the two modules *)

(** ** Sequencing in the [result] monad *)

Lemma mapM_Ok {A B : Type} (f : A -> result B) (l : list A) (k : list B) :
  mapM f l = Ok k <-> Forall2 (fun x y => f x = Ok y) l k.
Proof.
  revert k. induction l as [|x l IH]; intros k; cbn.
  - split; [intros [= <-]; constructor | by inversion 1].
  - split.
    + destruct (f x) as [y|] eqn:E; [|done]. cbn.
      destruct (mapM f l) as [k'|] eqn:E'; [|done]. cbn. intros [= <-].
      constructor; [done | by apply IH].
    + inversion 1 as [|? y ? k' Hy Hk]; subst. rewrite Hy. cbn.
      apply IH in Hk. by rewrite Hk.
Qed.

Lemma mapM_Raise {A B : Type} (f : A -> result B) (l : list A) (e : Error) :
  mapM f l = Raise e -> exists x, x ∈ l /\ f x = Raise e.
Proof.
  induction l as [|x l IH]; cbn; [done|].
  destruct (f x) as [y|e'] eqn:E; cbn.
  - destruct (mapM f l) as [k'|e''] eqn:E'; cbn; [done|]. intros [= ->].
    destruct IH as (z & Hz & Ez); [done|]. exists z. split; [by right | done].
  - intros [= ->]. exists x. split; [by left | done].
Qed.

Lemma mapM_Raise_first {A B : Type} (f : A -> result B) (l : list A) (x : A)
    (e : Error) :
  x ∈ l -> f x = Raise e -> exists e', mapM f l = Raise e'.
Proof.
  intros Hx Ex. destruct (mapM f l) as [k|e'] eqn:E; [|by exists e'].
  apply mapM_Ok in E. apply list_elem_of_lookup in Hx as [i Hi].
  destruct (Forall2_lookup_l _ _ _ _ _ E Hi) as (y & _ & Hy). congruence.
Qed.

(** ** [_atleast_2d] *)

Lemma ndim_atleast_2d (x : Tensor) : (2 <= ndim (_atleast_2d x))%nat.
Proof. destruct x as [[|n [|m s]] d]; unfold _atleast_2d, ndim; cbn; lia. Qed.

Lemma elems_atleast_2d (x : Tensor) : elems (_atleast_2d x) = elems x.
Proof. by destruct x as [[|n [|m s]] d]. Qed.

(** X1.  [_atleast_2d] returns a tensor of at least two dimensions with the
    elements, in the same order, and the number of positions of its
    argument; it leaves a tensor of two or more dimensions as it is, so
    applying it twice is applying it once. *)
Theorem atleast_2d_ensures (x : Tensor) :
  (2 <= ndim (_atleast_2d x))%nat
  /\ elems (_atleast_2d x) = elems x
  /\ numel (shape (_atleast_2d x)) = numel (shape x)
  /\ ((2 <= ndim x)%nat -> _atleast_2d x = x)
  /\ _atleast_2d (_atleast_2d x) = _atleast_2d x.
Proof.
  split; [apply ndim_atleast_2d|]. split; [apply elems_atleast_2d|].
  destruct x as [[|n [|m s]] d]; unfold _atleast_2d, ndim; cbn;
    repeat split; try done; try lia.
Qed.

Lemma atleast_2d_ensures_witness :
  _atleast_2d (mkTensor [2; 3]%nat [1; 2; 3; 4; 5; 6])
  = mkTensor [2; 3]%nat [1; 2; 3; 4; 5; 6].
Proof.
  destruct (atleast_2d_ensures (mkTensor [2; 3]%nat [1; 2; 3; 4; 5; 6]))
    as (_ & _ & _ & H & _).
  apply H. cbn. lia.
Defined.

(** ** [ControlRegions.__post_init__] *)

Lemma Data_getitems_names (d : Data) (keys : list string) (r : Data) :
  Data_getitems d keys = Ok r -> names r = keys.
Proof.
  unfold Data_getitems. intros E.
  destruct (mapM _ keys) as [js|]; [|done]. rewrite bind_Ok in E.
  destruct (take_columns (array d) js) as [a|]; [|done].
  rewrite bind_Ok in E. by injection E as <-.
Qed.

Lemma ControlRegions_init_fields (center_ : Data) (width_ : Width) (lamda_ : R)
    (coord_name_ component_param_name_ : string) (self : ControlRegions) :
  ControlRegions_init center_ width_ lamda_ coord_name_ component_param_name_
  = Ok self ->
  lamda self = lamda_ /\ component_param_name self = component_param_name_
  /\ _y_names self = filter (fun n => n <> coord_name_) (names center_).
Proof.
  unfold ControlRegions_init. intros E.
  destruct (Data_getitems center_ [coord_name_]) as [x|]; [|done].
  rewrite bind_Ok in E. cbv zeta in E.
  destruct (Data_getitems center_ _) as [cy|] in E; [|done].
  rewrite bind_Ok in E.
  destruct width_ as [f|wd].
  - rewrite bind_Ok in E. by injection E as <-.
  - destruct (Data_getitems wd _) as [d|] in E; [|done].
    rewrite !bind_Ok in E. by injection E as <-.
Qed.

(** X2.  What a successful construction stores: the arguments unchanged,
    [_x] with the single column [coord_name], [_y_names] the names of
    [center] without [coord_name] in their order, and targets and widths of
    at least two dimensions.  For a float width the widths have the shape of
    the targets, one per target, each [1 * width]. *)
Theorem ControlRegions_init_stores (center_ : Data) (width_ : Width) (lamda_ : R)
    (coord_name_ component_param_name_ : string) (self : ControlRegions) :
  ControlRegions_init center_ width_ lamda_ coord_name_ component_param_name_
  = Ok self ->
  center self = center_ /\ width self = width_ /\ lamda self = lamda_
  /\ coord_name self = coord_name_
  /\ component_param_name self = component_param_name_
  /\ names (_x self) = [coord_name_]
  /\ _y_names self = filter (fun n => n <> coord_name_) (names center_)
  /\ (coord_name_ ∉ _y_names self)
  /\ (2 <= ndim (_y self))%nat /\ (2 <= ndim (_w self))%nat
  /\ (forall f, width_ = WidthFloat f ->
        shape (_w self) = shape (_y self)
        /\ length (elems (_w self)) = length (elems (_y self))
        /\ Forall (fun e => e = 1 * f) (elems (_w self))).
Proof.
  unfold ControlRegions_init. intros E.
  destruct (Data_getitems center_ [coord_name_]) as [x|] eqn:Ex; [|done].
  rewrite bind_Ok in E. cbv zeta in E.
  destruct (Data_getitems center_ _) as [cy|] eqn:Ey in E; [|done].
  rewrite bind_Ok in E.
  destruct width_ as [f|wd].
  - rewrite bind_Ok in E. injection E as <-. cbn.
    repeat split; try done;
      try (by apply Data_getitems_names in Ex);
      try apply ndim_atleast_2d;
      try (rewrite list_elem_of_filter; intros [Hn _]; by apply Hn);
      try (by rewrite !length_fmap).
    match goal with H : WidthFloat _ = WidthFloat _ |- _ => injection H as <- end.
    apply Forall_fmap, Forall_fmap, Forall_forall. by intros.
  - destruct (Data_getitems wd _) as [d|] eqn:Ed in E; [|done].
    rewrite !bind_Ok in E. injection E as <-. cbn.
    repeat split; try done;
      try (by apply Data_getitems_names in Ex);
      try apply ndim_atleast_2d;
      try (rewrite list_elem_of_filter; intros [Hn _]; by apply Hn).
Qed.

Lemma ControlRegions_init_stores_witness :
  _y_names (example_prior "phi2") = ["phi2"%string]
  /\ shape (_w (example_prior "phi2")) = shape (_y (example_prior "phi2")).
Proof.
  destruct (ControlRegions_init_stores (example_center "phi2") (WidthFloat 0.5)
              0.05 "phi1" "mu" (example_prior "phi2"))
    as (_ & _ & _ & _ & _ & _ & Hn & _ & _ & _ & Hw).
  - apply example_init. done.
  - split; [exact Hn | by apply (Hw 0.5)].
Defined.

Lemma index_of_None (n : string) (l : list string) :
  n ∉ l -> index_of n l = None.
Proof.
  intros Hn. unfold index_of.
  destruct (list_find _ l) as [[i x]|] eqn:E; [|done].
  apply list_find_Some in E as (Hi & -> & _).
  destruct Hn. by eapply list_elem_of_lookup_2.
Qed.

Lemma index_of_Some (n : string) (l : list string) :
  n ∈ l -> exists j, index_of n l = Some j /\ (j < length l)%nat.
Proof.
  intros Hn. unfold index_of.
  destruct (list_find_elem_of (fun m => m = n) l n Hn eq_refl) as [[i x] E].
  rewrite E. exists i. split; [done|].
  apply list_find_Some in E as (Hi & _). by eapply lookup_lt_Some.
Qed.

(** Every exception of a sequence of key lookups is a [KeyError]. *)
Lemma mapM_lookup_KeyError {A B : Type} (g : A -> option B) (l : list A) (e : Error) :
  mapM (fun x => of_option KeyError (g x)) l = Raise e -> e = KeyError.
Proof.
  intros E. apply mapM_Raise in E as (x & _ & Ex).
  destruct (g x); cbn in Ex; congruence.
Qed.

Lemma mapM_lookup_missing {A B : Type} (g : A -> option B) (l : list A) (x : A) :
  x ∈ l -> g x = None ->
  mapM (fun x => of_option KeyError (g x)) l = Raise KeyError.
Proof.
  intros Hx Ex.
  destruct (mapM_Raise_first (fun x => of_option KeyError (g x)) l x KeyError Hx)
    as [e E]; [by rewrite Ex|].
  by rewrite E, (mapM_lookup_KeyError _ _ _ E).
Qed.

Lemma Data_getitems_missing (d : Data) (keys : list string) (k : string) :
  k ∈ keys -> k ∉ names d -> Data_getitems d keys = Raise KeyError.
Proof.
  intros Hk Hn. unfold Data_getitems.
  rewrite (mapM_lookup_missing (fun k => index_of k (names d)) keys k Hk);
    [done | by apply index_of_None].
Qed.

(** The columns [keys] of a two-dimensional array with a name per column. *)
Lemma Data_getitems_shape (n k : nat) (d : list R) (nms keys : list string) :
  (length nms <= k)%nat -> Forall (fun key => key ∈ nms) keys ->
  exists r, Data_getitems (mkData (mkTensor [n; k] d) nms) keys = Ok r
            /\ shape (array r) = [n; length keys] /\ names r = keys.
Proof.
  intros Hk Hkeys. unfold Data_getitems. cbn [names array].
  assert (exists js, mapM (fun key => of_option KeyError (index_of key nms)) keys
                     = Ok js
                     /\ length js = length keys
                     /\ Forall (fun j => (j < k)%nat) js) as (js & -> & Hl & Hjs).
  { induction Hkeys as [|key keys Hkey _ (js & IH & Hl & Hjs)].
    - by exists [].
    - destruct (index_of_Some key nms Hkey) as (j & Ej & Hj).
      exists (j :: js). cbn [mapM]. rewrite Ej, IH. cbn.
      split; [done|]. split; [by rewrite Hl|]. constructor; [lia | done]. }
  rewrite bind_Ok. unfold take_columns. cbn [shape].
  assert (forallb (fun j => (j <? k)%nat) js = true) as ->.
  { apply forallb_forall. intros j Hj%list_elem_of_In.
    rewrite Forall_forall in Hjs. apply Nat.ltb_lt. auto. }
  rewrite bind_Ok. eexists. split; [done|]. cbn. by rewrite Hl.
Qed.

(** X3.  A [center] without the column [coord_name] cannot be used: the
    construction raises [KeyError].  So does a [Data] width that lacks one
    of the dependent columns of a [center] that has its [coord_name]. *)
Theorem ControlRegions_init_missing_column (center_ : Data) (width_ : Width)
    (lamda_ : R) (coord_name_ component_param_name_ : string) :
  (coord_name_ ∉ names center_ ->
   ControlRegions_init center_ width_ lamda_ coord_name_ component_param_name_
   = Raise KeyError)
  /\ (forall wd n self,
        ControlRegions_init center_ (WidthFloat 0) lamda_ coord_name_
          component_param_name_ = Ok self ->
        width_ = WidthData wd ->
        n ∈ names center_ -> n <> coord_name_ -> n ∉ names wd ->
        ControlRegions_init center_ width_ lamda_ coord_name_
          component_param_name_ = Raise KeyError).
Proof.
  split.
  - intros Hn. unfold ControlRegions_init.
    rewrite (Data_getitems_missing center_ [coord_name_] coord_name_);
      [done | by left | done].
  - intros wd n self E -> Hn Hc Hw. unfold ControlRegions_init in *.
    destruct (Data_getitems center_ [coord_name_]) as [x|]; [|done].
    rewrite bind_Ok in *. cbv zeta in *.
    destruct (Data_getitems center_ _) as [cy|]; [|done].
    rewrite bind_Ok in *.
    rewrite (Data_getitems_missing wd _ n); [done | | done].
    by apply list_elem_of_filter.
Qed.

Lemma ControlRegions_init_missing_column_witness :
  ControlRegions_init (example_center "phi2") default_width default_lamda
    "phi9" "mu" = Raise KeyError.
Proof.
  apply (ControlRegions_init_missing_column (example_center "phi2")
           default_width default_lamda "phi9" "mu").
  cbn. rewrite !not_elem_of_cons. repeat split; try done. apply not_elem_of_nil.
Defined.

(** The shape that [_atleast_2d (squeeze x)] gives an array of [n] rows and
    [f] columns. *)
Lemma atleast_2d_squeeze_shape (n f : nat) (d : list R) :
  shape (_atleast_2d (squeeze (mkTensor [n; f] d)))
  = if decide (n = 1%nat /\ f <> 1%nat) then [f; 1%nat] else [n; f].
Proof.
  unfold squeeze, _atleast_2d. cbn [shape elems].
  rewrite filter_cons.
  destruct (decide (n <> 1%nat)) as [Hn | Hn].
  - rewrite filter_cons.
    destruct (decide (f <> 1%nat)) as [Hf | Hf]; rewrite filter_nil; cbn.
    + rewrite decide_False by tauto. done.
    + rewrite decide_False by tauto. f_equal. f_equal. lia.
  - assert (n = 1%nat) as -> by lia. rewrite filter_cons.
    destruct (decide (f <> 1%nat)) as [Hf | Hf]; rewrite filter_nil; cbn.
    + rewrite decide_True by tauto. done.
    + rewrite decide_False by tauto. f_equal. f_equal. lia.
Qed.

(** The construction with a float width, and the shapes it stores. *)
Lemma ControlRegions_init_float_shape (n k : nat) (d : list R)
    (nms : list string) (w lamda_ : R) (coord_name_ component_param_name_ : string) :
  (length nms <= k)%nat -> coord_name_ ∈ nms ->
  let center_ := mkData (mkTensor [n; k] d) nms in
  let f := length (filter (fun m => m <> coord_name_) nms) in
  exists self,
    ControlRegions_init center_ (WidthFloat w) lamda_ coord_name_
      component_param_name_ = Ok self
    /\ shape (_y self)
       = (if decide (n = 1%nat /\ f <> 1%nat) then [f; 1%nat] else [n; f])
    /\ shape (_w self) = shape (_y self)
    /\ shape (array (_x self)) = [n; 1%nat].
Proof.
  intros Hk Hc center_ f. unfold ControlRegions_init.
  destruct (Data_getitems_shape n k d nms [coord_name_] Hk) as (x & Ex & Sx & _).
  { by constructor. }
  destruct (Data_getitems_shape n k d nms
              (filter (fun m => m <> coord_name_) nms) Hk) as (cy & Ey & Sy & _).
  { apply Forall_forall. by intros m [_ Hm]%list_elem_of_filter. }
  subst center_. cbn [names]. rewrite Ex, bind_Ok. cbv zeta.
  rewrite Ey, !bind_Ok. eexists. split; [done|]. cbn.
  destruct (array cy) as [s e]. cbn in Sy. subst s.
  split; [apply atleast_2d_squeeze_shape|]. done.
Qed.

(** X4.  The shape of the stored targets.  For a [center] of [n] control
    points whose array has a name per column, [coord_name] among them, the
    construction with a float width succeeds, and with [f] dependent
    columns the targets and the widths have shape [[n; f]], except for a
    single control point with [f <> 1] dependent columns, where [squeeze]
    drops the control-point dimension and the shape is [[f; 1]]. *)
Theorem ControlRegions_init_target_shape (n k : nat) (d : list R)
    (nms : list string) (w lamda_ : R) (coord_name_ component_param_name_ : string) :
  (length nms <= k)%nat -> coord_name_ ∈ nms ->
  let center_ := mkData (mkTensor [n; k] d) nms in
  let f := length (filter (fun m => m <> coord_name_) nms) in
  exists self,
    ControlRegions_init center_ (WidthFloat w) lamda_ coord_name_
      component_param_name_ = Ok self
    /\ shape (_y self)
       = (if decide (n = 1%nat /\ f <> 1%nat) then [f; 1%nat] else [n; f])
    /\ shape (_w self) = shape (_y self)
    /\ shape (array (_x self)) = [n; 1%nat].
Proof. apply ControlRegions_init_float_shape. Qed.

Lemma ControlRegions_init_target_shape_witness :
  exists self,
    ControlRegions_init
      (mkData (mkTensor [1; 3]%nat [10; 2; 5]) ["phi1"; "phi2"; "pm"]%string)
      (WidthFloat 0.5) 0.05 "phi1" "mu" = Ok self
    /\ shape (_y self) = [2; 1]%nat.
Proof.
  destruct (ControlRegions_init_target_shape 1 3 [10; 2; 5]
              ["phi1"; "phi2"; "pm"]%string 0.5 0.05 "phi1" "mu")
    as (self & E & S & _).
  - cbn. lia.
  - by left.
  - exists self. split; [exact E | exact S].
Defined.

(** ** [ControlRegions.logpdf] after the construction *)

Lemma stack1_shape (n : nat) (cols : list Tensor) :
  cols <> [] -> Forall (fun t => shape t = [n]) cols ->
  exists c, stack1 cols = Ok c /\ shape c = [n; length cols].
Proof.
  intros Hne Hs. destruct cols as [|t0 cols]; [done|]. unfold stack1.
  assert (forallb (fun t => bool_decide (shape t = shape t0)) (t0 :: cols) = true)
    as ->.
  { apply forallb_forall. intros t Ht%list_elem_of_In.
    apply bool_decide_eq_true. rewrite Forall_forall in Hs.
    rewrite (Hs t Ht). symmetry. apply Hs. by left. }
  rewrite Forall_forall in Hs. rewrite (Hs t0) by by left.
  eexists. split; done.
Qed.

Lemma control_predictions_shape (self : ControlRegions) (model : ModelAPI) (n : nat) :
  _y_names self <> [] ->
  (forall name, name ∈ _y_names self ->
     exists t, unpack_params model (forward model (_x self))
                 !! (name, component_param_name self) = Some t
               /\ shape t = [n]) ->
  exists c, control_predictions self model = Ok c
            /\ shape c = [n; length (_y_names self)].
Proof.
  intros Hne Hp. unfold control_predictions. cbv zeta.
  set (cmpars := unpack_params model (forward model (_x self))) in *.
  assert (exists cols,
            mapM (fun name => of_option KeyError
                                (cmpars !! (name, component_param_name self)))
                 (_y_names self) = Ok cols
            /\ length cols = length (_y_names self)
            /\ Forall (fun t => shape t = [n]) cols) as (cols & -> & Hl & Hs).
  { clear Hne. induction (_y_names self) as [|name l IH]; [by exists []|].
    destruct (Hp name) as (t & Et & St); [by left|].
    destruct IH as (cols & Ec & Hl & Hs); [intros; apply Hp; by right|].
    exists (t :: cols). cbn [mapM]. rewrite Et, Ec. cbn.
    split; [done|]. split; [by rewrite Hl | by constructor]. }
  rewrite bind_Ok. destruct (stack1_shape n cols) as (c & -> & Sc); [|done|].
  - intros ->. destruct (_y_names self); [done | discriminate].
  - exists c. by rewrite Sc, Hl.
Qed.

Lemma broadcast_shapes_row_column (f : nat) :
  f <> 1%nat -> broadcast_shapes [1%nat; f] [f; 1%nat] = Some [f; f].
Proof.
  intros Hf. unfold broadcast_shapes. cbn. unfold broadcast_dim.
  repeat case_decide; subst; try done.
Qed.

Lemma mask_select_mismatch (x : Tensor) (m : Mask) :
  mask_shape m <> shape x -> mask_select x m = Raise IndexError.
Proof. intros H. unfold mask_select. by rewrite decide_False. Qed.

Lemma cmpop_row_column (g : R -> R -> bool) (f : nat) (x y : Tensor) :
  f <> 1%nat -> shape x = [1%nat; f] -> shape y = [f; 1%nat] ->
  exists m, cmpop g x y = Ok m /\ mask_shape m = [f; f].
Proof.
  intros Hf Sx Sy. unfold cmpop, broadcast2.
  rewrite Sx, Sy, broadcast_shapes_row_column by done.
  cbn [of_option]. rewrite !bind_Ok. eexists. split; done.
Qed.

(** Predictions of shape [[1; f]] against targets and widths of shape
    [[f; 1]]: the comparison broadcasts to [[f; f]] and the mask does not
    fit the predictions. *)
Lemma penalties_row_column (f : nat) (cmp_arr y w : Tensor) :
  f <> 1%nat ->
  shape cmp_arr = [1%nat; f] -> shape y = [f; 1%nat] -> shape w = [f; 1%nat] ->
  penalties cmp_arr y w = Raise IndexError.
Proof.
  intros Hf Sc Sy Sw. unfold penalties. cbv zeta.
  rewrite (binop_same Rminus y w) by congruence. rewrite bind_Ok.
  destruct (cmpop_row_column Rleb f cmp_arr
              (mkTensor (shape y) (zip_with Rminus (elems y) (elems w))))
    as (m & -> & Sm); [done | done | done |].
  rewrite bind_Ok, (mask_select_mismatch cmp_arr m); [done|].
  rewrite Sm, Sc. intros [= ?]. done.
Qed.

(** X5.  After the construction from a [center] of [n] control points and
    [f >= 1] dependent columns, evaluated against a model that predicts one
    value per control point for every dependent column: with two or more
    control points, or a single dependent column, [logpdf] returns [-lamda]
    times the sum of the penalties; with a single control point and two or
    more dependent columns it raises [IndexError]. *)
Theorem logpdf_after_init (n k : nat) (d : list R) (nms : list string)
    (w lamda_ : R) (coord_name_ component_param_name_ : string)
    (self : ControlRegions) (mpars : Params) (data : Data) (model : ModelAPI)
    (current_lnpdf : option Tensor) :
  (length nms <= k)%nat -> coord_name_ ∈ nms ->
  ControlRegions_init (mkData (mkTensor [n; k] d) nms) (WidthFloat w) lamda_
    coord_name_ component_param_name_ = Ok self ->
  let f := length (filter (fun m => m <> coord_name_) nms) in
  (1 <= f)%nat ->
  (forall name, name ∈ nms -> name <> coord_name_ ->
     exists t, unpack_params model (forward model (_x self))
                 !! (name, component_param_name_) = Some t
               /\ shape t = [n]) ->
  exists cmp_arr,
    control_predictions self model = Ok cmp_arr
    /\ shape cmp_arr = [n; f]
    /\ (n <> 1%nat \/ f = 1%nat ->
        logpdf self mpars data model current_lnpdf
        = Ok (- lamda_ * total_penalty (elems cmp_arr) (elems (_y self))
                           (elems (_w self))))
    /\ (n = 1%nat -> (2 <= f)%nat ->
        logpdf self mpars data model current_lnpdf = Raise IndexError).
Proof.
  intros Hk Hc E f Hf Hp.
  destruct (ControlRegions_init_fields _ _ _ _ _ _ E) as (El & Ecp & Ey).
  cbn [names] in Ey.
  destruct (ControlRegions_init_float_shape n k d nms w lamda_ coord_name_
              component_param_name_ Hk Hc) as (self' & E' & Sy & Sw & _).
  rewrite E in E'. injection E' as <-. fold f in Sy.
  destruct (control_predictions_shape self model n) as (c & Ec & Sc).
  { rewrite Ey. intros H. subst f. rewrite H in Hf. cbn in Hf. lia. }
  { intros name Hn. rewrite Ey in Hn. apply list_elem_of_filter in Hn as [Hne Hin].
    rewrite Ecp. by apply Hp. }
  rewrite Ey in Sc. fold f in Sc.
  exists c. split; [done|]. split; [done|]. split.
  - intros Hnf. rewrite decide_False in Sy by tauto.
    rewrite <- El. apply logpdf_same; congruence.
  - intros -> H2. rewrite decide_True in Sy by (split; [done | lia]).
    unfold logpdf. rewrite Ec, bind_Ok.
    rewrite (penalties_row_column f); [done | lia | done | done | congruence].
Qed.

Lemma logpdf_after_init_witness :
  exists self v,
    ControlRegions_init example_track (WidthFloat 0.5) 0.05 "phi1" "mu" = Ok self
    /\ logpdf self ∅ example_track example_track_model None = Ok v.
Proof.
  destruct (ControlRegions_init_float_shape 2 2 [10; 2; 20; 3]
              ["phi1"; "phi2"]%string 0.5 0.05 "phi1" "mu")
    as (self & E & _); [cbn; lia | by left |].
  destruct (logpdf_after_init 2 2 [10; 2; 20; 3] ["phi1"; "phi2"]%string
              0.5 0.05 "phi1" "mu" self ∅ example_track example_track_model None)
    as (c & _ & _ & H & _).
  - cbn. lia.
  - by left.
  - exact E.
  - vm_compute. lia.
  - intros name Hn Hne. exists (mkTensor [2%nat] [2; 4]). split; [|done].
    apply elem_of_cons in Hn as [-> | Hn]; [done|].
    apply elem_of_cons in Hn as [-> | Hn]; [|by apply elem_of_nil in Hn].
    cbn. apply lookup_singleton_eq.
  - exists self. eexists. split; [exact E|]. apply H. by left.
Defined.

(** X6.  A prior without a dependent column has nothing to stack: [logpdf]
    raises [RuntimeError] for every model.  That is the prior constructed
    from a [center] whose only column is [coord_name]. *)
Theorem logpdf_no_dependent_column (self : ControlRegions) (mpars : Params)
    (data : Data) (model : ModelAPI) (current_lnpdf : option Tensor) :
  (_y_names self = [] ->
   logpdf self mpars data model current_lnpdf = Raise RuntimeError)
  /\ (forall center_ width_ lamda_ coord_name_ component_param_name_,
        ControlRegions_init center_ width_ lamda_ coord_name_
          component_param_name_ = Ok self ->
        (forall m, m ∈ names center_ -> m = coord_name_) ->
        logpdf self mpars data model current_lnpdf = Raise RuntimeError).
Proof.
  assert (_y_names self = [] ->
          logpdf self mpars data model current_lnpdf = Raise RuntimeError) as H.
  { intros E. unfold logpdf, control_predictions. cbv zeta. by rewrite E. }
  split; [exact H|].
  intros c w l cn cpn E Hall. apply H.
  destruct (ControlRegions_init_fields _ _ _ _ _ _ E) as (_ & _ & ->).
  induction (names c) as [|m ms IH]; [done|].
  rewrite filter_cons_False.
  - apply IH. intros m' Hm'. apply Hall. by right.
  - intros Hm. apply Hm, Hall. by left.
Qed.

Lemma logpdf_no_dependent_column_witness :
  exists self,
    ControlRegions_init (mkData (mkTensor [1; 1]%nat [10]) ["phi1"%string])
      default_width default_lamda "phi1" "mu" = Ok self
    /\ logpdf self ∅ (example_center "phi2") (constant_model "phi2" 2) None
       = Raise RuntimeError.
Proof.
  destruct (ControlRegions_init_float_shape 1 1 [10] ["phi1"%string]
              0.5 0.05 "phi1" "mu") as (self & E & _); [cbn; lia | by left |].
  exists self. split; [exact E|].
  destruct (logpdf_no_dependent_column self ∅ (example_center "phi2")
              (constant_model "phi2" 2) None) as [_ H].
  apply (H _ _ _ _ _ E).
  intros m Hm. apply elem_of_cons in Hm as [-> | Hm]; [done|].
  by apply elem_of_nil in Hm.
Defined.

(** X7.  A model whose parameters lack [(n, component_param_name)] for one
    of the dependent columns [n] makes [logpdf] raise [KeyError]. *)
Theorem logpdf_missing_parameter (self : ControlRegions) (mpars : Params)
    (data : Data) (model : ModelAPI) (current_lnpdf : option Tensor) (n : string) :
  n ∈ _y_names self ->
  unpack_params model (forward model (_x self)) !! (n, component_param_name self)
  = None ->
  logpdf self mpars data model current_lnpdf = Raise KeyError.
Proof.
  intros Hn E. unfold logpdf, control_predictions. cbv zeta.
  rewrite (mapM_lookup_missing
             (fun n => unpack_params model (forward model (_x self))
                         !! (n, component_param_name self))
             (_y_names self) n Hn E).
  reflexivity.
Qed.

Lemma logpdf_missing_parameter_witness :
  logpdf (example_prior "phi2") ∅ (example_center "phi2")
    (constant_model "pm" 2) None = Raise KeyError.
Proof.
  apply (logpdf_missing_parameter (example_prior "phi2") ∅
           (example_center "phi2") (constant_model "pm" 2) None "phi2").
  - by left.
  - cbn. by apply lookup_singleton_ne.
Defined.

Lemma mapM_ext_in {A B : Type} (f g : A -> result B) (l : list A) :
  (forall x, x ∈ l -> f x = g x) -> mapM f l = mapM g l.
Proof.
  induction l as [|x l IH]; intros H; [done|].
  cbn [mapM]. rewrite (H x) by by left. rewrite IH; [done|].
  intros y Hy. apply H. by right.
Qed.

(** X8.  [logpdf] sees the model only through the parameters
    [component_param_name] of the dependent columns at the control points:
    two models that agree on them give the same result, whatever [mpars],
    [data] and [current_lnpdf] are. *)
Theorem logpdf_depends_on_predictions (self : ControlRegions)
    (mpars1 mpars2 : Params) (data1 data2 : Data) (model1 model2 : ModelAPI)
    (c1 c2 : option Tensor) :
  (forall n, n ∈ _y_names self ->
     unpack_params model1 (forward model1 (_x self))
       !! (n, component_param_name self)
     = unpack_params model2 (forward model2 (_x self))
         !! (n, component_param_name self)) ->
  logpdf self mpars1 data1 model1 c1 = logpdf self mpars2 data2 model2 c2.
Proof.
  intros H. unfold logpdf, control_predictions. cbv zeta.
  rewrite (mapM_ext_in _
             (fun n => of_option KeyError
                         (unpack_params model2 (forward model2 (_x self))
                            !! (n, component_param_name self)))).
  - reflexivity.
  - intros n Hn. cbn beta. by rewrite (H n Hn).
Qed.

Lemma logpdf_depends_on_predictions_witness :
  logpdf (example_prior "phi2") ∅ (example_center "phi2")
    (constant_model "phi2" 3) None
  = logpdf (example_prior "phi2") example_mpars example_track
      (mkModel (fun _ => scalar 0)
         (fun _ => {[ ("phi2", "mu")%string := mkTensor [1%nat] [3];
                      ("pm", "mu")%string := mkTensor [1%nat] [7] ]}))
      (Some (scalar 1)).
Proof.
  apply (logpdf_depends_on_predictions (example_prior "phi2")).
  intros n Hn. apply elem_of_cons in Hn as [-> | Hn];
    [|by apply elem_of_nil in Hn].
  cbn [unpack_params constant_model component_param_name example_prior].
  unfold default_component_param_name.
  transitivity (Some (mkTensor [1%nat] [3])).
  - apply lookup_singleton_eq.
  - symmetry. apply lookup_insert_eq.
Defined.

(** ** The size of the penalty *)

Lemma elem_penalty_zero (p y w : R) :
  0 <= w -> (elem_penalty p y w = 0 <-> y - w <= p <= y + w).
Proof.
  intros Hw. split.
  - intros E. destruct (Rle_dec (y - w) p) as [H1|H1];
      [destruct (Rle_dec p (y + w)) as [H2|H2]; [lra|] |].
    + pose proof (elem_penalty_outside p y w Hw). lra.
    + pose proof (elem_penalty_outside p y w Hw). lra.
  - intros [H1 H2]. penalty_cases p y w; nra.
Qed.

Lemma total_penalty_zero (cs ys ws : list R) :
  Forall (fun w => 0 <= w) ws ->
  total_penalty cs ys ws = 0
  <-> Forall (fun c => c.2.1 - c.2.2 <= c.1 <= c.2.1 + c.2.2) (zip cs (zip ys ws)).
Proof.
  unfold total_penalty. revert ys ws.
  induction cs as [|c cs IH]; intros ys ws Hw; [by split|].
  destruct ys as [|y ys]; [by split|].
  destruct ws as [|w ws]; [by split|].
  apply Forall_cons in Hw as [Hw Hws].
  cbn [zip zip_with Rsum foldr fst snd].
  pose proof (elem_penalty_nonneg c y w) as Hc.
  pose proof (total_penalty_nonneg cs ys ws) as Ht. unfold total_penalty in Ht.
  specialize (IH ys ws Hws). unfold Rsum in *.
  rewrite Forall_cons. cbn [fst snd]. rewrite <- IH, <- (elem_penalty_zero c y w Hw).
  split; [intros E; split; lra | intros [-> ->]; lra].
Qed.

(** X9.  With [lamda <> 0] and widths that are not negative, on targets and
    widths of the shape of the predictions: [logpdf] returns [0] exactly
    when every prediction lies in its closed band
    [target - width <= predicted <= target + width]. *)
Theorem logpdf_zero_iff_in_bands (self : ControlRegions) (mpars : Params)
    (data : Data) (model : ModelAPI) (current_lnpdf : option Tensor)
    (cmp_arr : Tensor) :
  control_predictions self model = Ok cmp_arr ->
  shape (_y self) = shape cmp_arr -> shape (_w self) = shape cmp_arr ->
  lamda self <> 0 ->
  Forall (fun w => 0 <= w) (elems (_w self)) ->
  logpdf self mpars data model current_lnpdf = Ok 0
  <-> Forall (fun c => c.2.1 - c.2.2 <= c.1 <= c.2.1 + c.2.2)
        (zip (elems cmp_arr) (zip (elems (_y self)) (elems (_w self)))).
Proof.
  intros Ec Ey Ew Hl Hw.
  rewrite (logpdf_same self mpars data model current_lnpdf cmp_arr Ec Ey Ew).
  rewrite <- (total_penalty_zero _ _ _ Hw).
  split.
  - intros [= E]. nra.
  - intros ->. f_equal. lra.
Qed.

Lemma logpdf_zero_iff_in_bands_witness :
  logpdf (example_prior "phi2") ∅ (example_center "phi2")
    (constant_model "phi2" 2.5) None = Ok 0.
Proof.
  apply (logpdf_zero_iff_in_bands (example_prior "phi2") ∅
           (example_center "phi2") (constant_model "phi2" 2.5) None
           (mkTensor [1; 1]%nat [2.5])).
  - apply example_predictions, constant_model_prediction.
  - reflexivity.
  - reflexivity.
  - cbn. unfold default_lamda. lra.
  - cbn. constructor; [lra | constructor].
  - cbn. constructor; [cbn; lra | constructor].
Defined.

Lemma elem_penalty_distance (p y w : R) :
  0 <= w -> elem_penalty p y w = Rmax 0 (Rabs (p - y) - w) ^ 2.
Proof.
  intros Hw. unfold Rmax, Rabs.
  destruct (Rcase_abs (p - y)); destruct (Rle_dec _ _);
    penalty_cases p y w; nra.
Qed.

(** X10.  For a width that is not negative the penalty that [penalties]
    leaves at a position is the squared distance from the prediction to the
    band, [max(0, |predicted - target| - width)^2]: it is the same on both
    sides of the target and does not decrease with the distance from the
    target. *)
Theorem penalty_is_squared_distance (cmp_arr y w pdf : Tensor) (k : nat)
    (p t wd : R) :
  penalties cmp_arr y w = Ok pdf ->
  elems cmp_arr !! k = Some p -> elems y !! k = Some t -> elems w !! k = Some wd ->
  0 <= wd ->
  elems pdf !! k = Some (Rmax 0 (Rabs (p - t) - wd) ^ 2)
  /\ (forall dlt, elem_penalty (t + dlt) t wd = elem_penalty (t - dlt) t wd)
  /\ (forall p', Rabs (p - t) <= Rabs (p' - t) ->
        elem_penalty p t wd <= elem_penalty p' t wd).
Proof.
  intros Ep Hc Hy Hw Hwd.
  destruct (penalties_Ok _ _ _ _ Ep) as [Ey Ew].
  rewrite penalties_same in Ep by done. injection Ep as <-. cbn [elems].
  split; [|split].
  - rewrite (pen_list_lookup _ _ _ k p t wd) by done.
    by rewrite elem_penalty_distance.
  - intros dlt. rewrite !elem_penalty_distance by done.
    replace (t + dlt - t) with dlt by lra.
    replace (t - dlt - t) with (- dlt) by lra. by rewrite Rabs_Ropp.
  - intros p' Hd. rewrite !elem_penalty_distance by done.
    assert (0 <= Rmax 0 (Rabs (p - t) - wd) <= Rmax 0 (Rabs (p' - t) - wd)) as [H1 H2].
    { split; [apply Rmax_l|]. apply Rle_max_compat_l. lra. }
    nra.
Qed.

Lemma penalty_is_squared_distance_witness :
  elems (mkTensor [1; 1]%nat (pen_list [3] [2] [0.5])) !! 0%nat
  = Some (Rmax 0 (Rabs (3 - 2) - 0.5) ^ 2).
Proof.
  apply (penalty_is_squared_distance
           (mkTensor [1; 1]%nat [3]) (mkTensor [1; 1]%nat [2])
           (mkTensor [1; 1]%nat [0.5])
           (mkTensor [1; 1]%nat (pen_list [3] [2] [0.5])) 0 3 2 0.5).
  - by apply penalties_same.
  - reflexivity.
  - reflexivity.
  - reflexivity.
  - lra.
Defined.

(** ** The error function *)

Lemma gauss_pos (t : R) : 0 < gauss t.
Proof. apply exp_pos. Qed.

Lemma gauss_lower_bound (a b t : R) :
  a <= t <= b -> exp (- (Rmax (Rabs a) (Rabs b) * Rmax (Rabs a) (Rabs b))) <= gauss t.
Proof.
  intros [Ha Hb]. unfold gauss.
  set (M := Rmax (Rabs a) (Rabs b)).
  assert (Rabs t <= M) as Ht.
  { unfold M. unfold Rabs at 1. destruct (Rcase_abs t).
    - apply Rle_trans with (Rabs a); [|apply Rmax_l].
      unfold Rabs. destruct (Rcase_abs a); lra.
    - apply Rle_trans with (Rabs b); [|apply Rmax_r].
      unfold Rabs. destruct (Rcase_abs b); lra. }
  assert (t * t <= M * M) as Hsq.
  { pose proof (Rabs_pos t). replace (t * t) with (Rabs t * Rabs t); [nra|].
    unfold Rabs. destruct (Rcase_abs t); ring. }
  destruct (Rle_lt_or_eq_dec _ _ Hsq) as [Hlt | Heq].
  - left. apply exp_increasing. lra.
  - right. by rewrite Heq.
Qed.

(** The integral of [gauss] over an interval is positive. *)
Lemma gauss_integral_pos (a b : R) :
  a < b -> 0 < RiemannInt (gauss_integrable a b).
Proof.
  intros Hab.
  set (m := exp (- (Rmax (Rabs a) (Rabs b) * Rmax (Rabs a) (Rabs b)))).
  assert (0 < m) as Hm by apply exp_pos.
  apply Rlt_le_trans with (m * (b - a)); [nra|].
  rewrite <- (RiemannInt_P15 (RiemannInt_P14 a b m)).
  apply RiemannInt_P19; [lra|].
  intros t Ht. unfold fct_cte. apply gauss_lower_bound. lra.
Qed.

Lemma erf_increasing (a b : R) : a < b -> erf a < erf b.
Proof.
  intros Hab. unfold erf.
  pose proof (RiemannInt_P26 (gauss_integrable 0 a) (gauss_integrable a b)
                (gauss_integrable 0 b)) as Hc.
  pose proof (gauss_integral_pos a b Hab) as Hp.
  assert (0 < 2 / sqrt PI) as Hk.
  { apply Rdiv_lt_0_compat; [lra|]. apply sqrt_lt_R0, PI_RGT_0. }
  nra.
Qed.

Lemma erf_sign (x : R) : (0 <= x -> 0 <= erf x) /\ (x <= 0 -> erf x <= 0).
Proof.
  split; intros Hx.
  - destruct (Rle_lt_or_eq_dec _ _ Hx) as [H | <-]; [|rewrite erf_0; lra].
    pose proof (erf_increasing 0 x H). rewrite erf_0 in *. lra.
  - destruct (Rle_lt_or_eq_dec _ _ Hx) as [H | ->]; [|rewrite erf_0; lra].
    pose proof (erf_increasing x 0 H). rewrite erf_0 in *. lra.
Qed.

(** ** The log-densities *)

Lemma skew_argument_sign (value loc sigma skew : R) :
  0 < sigma ->
  (0 <= skew -> loc <= value -> 0 <= skew * (value - loc) / sigma / _sqrt2)
  /\ (0 < skew -> loc < value -> 0 < skew * (value - loc) / sigma / _sqrt2).
Proof.
  intros Hs. assert (0 < _sqrt2) as H2 by (apply sqrt_lt_R0; lra).
  assert (0 < / sigma) by by apply Rinv_0_lt_compat.
  assert (0 < / _sqrt2) by by apply Rinv_0_lt_compat.
  unfold Rdiv. split; intros Hk Hv.
  - repeat apply Rmult_le_pos; lra.
  - repeat apply Rmult_lt_0_compat; lra.
Qed.

(** X11.  The skew term never lowers the density right of the location:
    for [sigma > 0], [skew >= 0] and [value >= loc], [skewnorm_logpdf] is at
    least [norm_logpdf], and strictly more when [skew > 0] and
    [value > loc]. *)
Theorem skewnorm_logpdf_right_of_loc (value loc sigma skew : R) :
  0 < sigma -> 0 <= skew -> loc <= value ->
  norm_logpdf value loc sigma <= skewnorm_logpdf value loc sigma skew
  /\ (0 < skew -> loc < value ->
      norm_logpdf value loc sigma < skewnorm_logpdf value loc sigma skew).
Proof.
  intros Hs Hk Hv. unfold skewnorm_logpdf.
  cbn [add mul sub div asarray xp_log xp_erf R_namespace].
  destruct (skew_argument_sign value loc sigma skew Hs) as [Ha Ha'].
  set (z := skew * (value - loc) / sigma / _sqrt2) in *.
  split.
  - destruct (erf_sign z) as [He _]. specialize (He (Ha Hk Hv)).
    destruct (Rle_lt_or_eq_dec _ _ He) as [Hlt | <-].
    + pose proof (ln_increasing 1 (1 + erf z)). rewrite ln_1 in *. lra.
    + rewrite Rplus_0_r, ln_1. lra.
  - intros Hk' Hv'. pose proof (erf_increasing 0 z (Ha' Hk' Hv')) as He.
    rewrite erf_0 in He.
    pose proof (ln_increasing 1 (1 + erf z)). rewrite ln_1 in *. lra.
Qed.

Lemma skewnorm_logpdf_right_of_loc_witness :
  norm_logpdf 3 1 2 <= skewnorm_logpdf 3 1 2 1.
Proof. apply (skewnorm_logpdf_right_of_loc 3 1 2 1); lra. Defined.

(** ** The model wrappers on arrays *)

Lemma SkewNormal_ln_likelihood_present (self : ModelBase) (mpars : Params)
    (data : Data) (c : string) (x mu sg sk : Tensor) :
  coord_names self !! 0%nat = Some c ->
  Data_getitem data c = Ok x ->
  mpars !! (c, "mu"%string) = Some mu ->
  mpars !! (c, "sigma"%string) = Some sg ->
  mpars !! (c, "skew"%string) = Some sk ->
  SkewNormal.ln_likelihood self mpars data
  = skewnorm_logpdf (Ok x) (Ok mu) (xp_clip (Ok sg) 1e-10) (xp_clip (Ok sk) 1e-10).
Proof.
  intros Hc Hx Hmu Hsg Hsk. unfold SkewNormal.ln_likelihood.
  rewrite Hc. cbn [of_option]. by rewrite bind_Ok, Hx, bind_Ok, Hmu, Hsg, Hsk.
Qed.

Lemma TruncatedSkewNormal_ln_likelihood_present (self : ModelBase)
    (mpars : Params) (data : Data) (c : string) (x mu sg sk : Tensor) (a b : R) :
  coord_names self !! 0%nat = Some c ->
  Data_getitem data c = Ok x ->
  mpars !! (c, "mu"%string) = Some mu ->
  mpars !! (c, "sigma"%string) = Some sg ->
  mpars !! (c, "skew"%string) = Some sk ->
  coord_bounds self !! c = Some (a, b) ->
  TruncatedSkewNormal.ln_likelihood self mpars data
  = truncatedskewnorm_logpdf (Ok x) (Ok mu)
      (xp_clip (Ok sg) 1e-10) (xp_clip (Ok sk) 1e-10) (asarray a, asarray b).
Proof.
  intros Hc Hx Hmu Hsg Hsk Hb. unfold TruncatedSkewNormal.ln_likelihood.
  rewrite Hc. cbn [of_option].
  rewrite bind_Ok, Hx, bind_Ok, Hmu, Hsg, Hsk. cbn [of_option].
  by rewrite !bind_Ok, Hb.
Qed.

Lemma Data_getitem_missing (d : Data) (c : string) :
  c ∉ names d -> Data_getitem d c = Raise KeyError.
Proof. intros H. unfold Data_getitem. by rewrite index_of_None. Qed.

(** X13.  What makes [ln_likelihood] raise before any arithmetic: no
    coordinate name gives [IndexError]; a coordinate that is not a column
    of the data, or a missing [mu], [sigma] or [skew] parameter, gives
    [KeyError]; and for the truncated model so does a coordinate without
    configured bounds.  [SkewNormal.ln_likelihood] does not read the
    bounds. *)
Theorem ln_likelihood_raises (self : ModelBase) (mpars : Params) (data : Data) :
  (coord_names self = [] ->
   SkewNormal.ln_likelihood self mpars data = Raise IndexError
   /\ TruncatedSkewNormal.ln_likelihood self mpars data = Raise IndexError)
  /\ (forall c, coord_names self !! 0%nat = Some c -> c ∉ names data ->
      SkewNormal.ln_likelihood self mpars data = Raise KeyError
      /\ TruncatedSkewNormal.ln_likelihood self mpars data = Raise KeyError)
  /\ (forall c x, coord_names self !! 0%nat = Some c ->
      Data_getitem data c = Ok x ->
      mpars !! (c, "mu"%string) = None \/ mpars !! (c, "sigma"%string) = None
      \/ mpars !! (c, "skew"%string) = None ->
      SkewNormal.ln_likelihood self mpars data = Raise KeyError
      /\ TruncatedSkewNormal.ln_likelihood self mpars data = Raise KeyError)
  /\ (forall c x mu sg sk, coord_names self !! 0%nat = Some c ->
      Data_getitem data c = Ok x ->
      mpars !! (c, "mu"%string) = Some mu ->
      mpars !! (c, "sigma"%string) = Some sg ->
      mpars !! (c, "skew"%string) = Some sk ->
      coord_bounds self !! c = None ->
      TruncatedSkewNormal.ln_likelihood self mpars data = Raise KeyError)
  /\ (forall bounds,
      SkewNormal.ln_likelihood (mkModelBase (coord_names self) bounds) mpars data
      = SkewNormal.ln_likelihood self mpars data).
Proof.
  unfold SkewNormal.ln_likelihood, TruncatedSkewNormal.ln_likelihood.
  split; [|split; [|split; [|split]]].
  - intros ->. done.
  - intros c -> Hc. cbn [of_option]. rewrite !bind_Ok.
    by rewrite Data_getitem_missing.
  - intros c x Hc Hx H. rewrite Hc. cbn [of_option]. rewrite !bind_Ok, Hx, !bind_Ok.
    destruct (mpars !! (c, "mu"%string)); [|done].
    destruct (mpars !! (c, "sigma"%string)); [|done].
    destruct (mpars !! (c, "skew"%string)); [|done].
    by destruct H as [|[|]].
  - intros c x mu sg sk Hc Hx Hmu Hsg Hsk Hb. rewrite Hc. cbn [of_option].
    rewrite !bind_Ok, Hx, !bind_Ok, Hmu, Hsg, Hsk. cbn [of_option].
    by rewrite !bind_Ok, Hb.
  - done.
Qed.

Lemma ln_likelihood_raises_witness :
  SkewNormal.ln_likelihood example_model ∅ (example_center "phi2")
  = Raise KeyError
  /\ TruncatedSkewNormal.ln_likelihood
       (mkModelBase ["phi2"%string] ∅) example_mpars (example_center "phi2")
     = Raise KeyError.
Proof.
  destruct (ln_likelihood_raises example_model ∅ (example_center "phi2"))
    as (_ & _ & H & _).
  destruct (ln_likelihood_raises (mkModelBase ["phi2"%string] ∅) example_mpars
              (example_center "phi2")) as (_ & _ & _ & H' & _).
  split.
  - apply (H "phi2"%string (mkTensor [1%nat] [2])); [done | done |]. by left.
  - by apply (H' "phi2"%string (mkTensor [1%nat] [2]) (mkTensor [1%nat] [2])
               (mkTensor [1%nat] [0]) (mkTensor [1%nat] [1])).
Defined.

Lemma length_flat_map_singletons {A : Type} (g : nat -> list A) (l : list nat) :
  (forall i, i ∈ l -> length (g i) = 1%nat) ->
  length (flat_map g l) = length l.
Proof.
  induction l as [|i l IH]; intros H; [done|].
  cbn. rewrite length_app, (H i), IH; [done | | by left].
  intros j Hj. apply H. by right.
Qed.

(** The column of a well-formed array of [n] rows has [n] elements. *)
Lemma Data_getitem_returns_shape (n k : nat) (d : list R) (nms : list string)
    (c : string) :
  length d = (n * k)%nat -> (length nms <= k)%nat -> c ∈ nms ->
  returns_shape [n] (Data_getitem (mkData (mkTensor [n; k] d) nms) c).
Proof.
  intros Hd Hk Hc. unfold Data_getitem. cbn [names array].
  destruct (index_of_Some c nms Hc) as (j & -> & Hj). cbn [of_option].
  rewrite bind_Ok. unfold take_column. cbn [shape elems].
  assert ((j <? k)%nat = true) as -> by (apply Nat.ltb_lt; lia).
  eexists. split; [done|]. split; [done|]. unfold well_formed. cbn.
  rewrite length_flat_map_singletons, length_seq; [lia|].
  intros i Hi%elem_of_seq. unfold block.
  rewrite length_take, length_drop. nia.
Qed.

(** X14.  One log-density per sample.  For data of [n] samples with a name
    per column and parameter arrays [mu], [sigma], [skew] of [n] elements,
    [SkewNormal.ln_likelihood] returns an array of shape [[n]] with [n]
    elements. *)
Theorem ln_likelihood_one_per_sample (self : ModelBase) (mpars : Params)
    (n k : nat) (d : list R) (nms : list string) (c : string)
    (mu sg sk : Tensor) :
  let data := mkData (mkTensor [n; k] d) nms in
  length d = (n * k)%nat -> (length nms <= k)%nat -> c ∈ nms ->
  coord_names self !! 0%nat = Some c ->
  mpars !! (c, "mu"%string) = Some mu ->
  mpars !! (c, "sigma"%string) = Some sg ->
  mpars !! (c, "skew"%string) = Some sk ->
  shape mu = [n] -> shape sg = [n] -> shape sk = [n] ->
  well_formed mu -> well_formed sg -> well_formed sk ->
  exists out, SkewNormal.ln_likelihood self mpars data = Ok out
              /\ shape out = [n] /\ length (elems out) = n.
Proof.
  intros data Hd Hk Hc Hn Hmu Hsg Hsk Smu Ssg Ssk Wmu Wsg Wsk.
  destruct (Data_getitem_returns_shape n k d nms c Hd Hk Hc) as (x & Ex & Sx & Wx).
  assert (returns_shape [n] (Ok x)) as Rx by by exists x.
  assert (returns_shape [n] (Ok mu)) as Rmu by by exists mu.
  assert (returns_shape [n] (xp_clip (Ok sg) 1e-10)) as Rsg
    by (apply returns_shape_lift1; by exists sg).
  assert (returns_shape [n] (xp_clip (Ok sk) 1e-10)) as Rsk
    by (apply returns_shape_lift1; by exists sk).
  rewrite (SkewNormal_ln_likelihood_present self mpars data c x mu sg sk)
    by done.
  destruct (skewnorm_logpdf_returns_shape [n] _ _ _ _ Rx Rmu Rsg Rsk)
    as (out & -> & So & Wo).
  exists out. unfold well_formed in Wo. rewrite So in Wo. cbn in Wo.
  split; [done|]. split; [done | lia].
Qed.

Lemma ln_likelihood_one_per_sample_witness :
  exists out,
    SkewNormal.ln_likelihood example_model example_mpars (example_center "phi2")
    = Ok out
    /\ shape out = [1%nat] /\ length (elems out) = 1%nat.
Proof.
  apply (ln_likelihood_one_per_sample example_model example_mpars
           1 2 [10; 2] ["phi1"; "phi2"]%string "phi2"
           (mkTensor [1%nat] [2]) (mkTensor [1%nat] [0]) (mkTensor [1%nat] [1]));
    try reflexivity.
  right. by left.
Defined.

Lemma clip_above_floor (lo : R) (t : Tensor) :
  Forall (fun e => lo <= e) (elems t) -> tensor_map (fun e => Rmax e lo) t = t.
Proof.
  intros H. destruct t as [s l]. unfold tensor_map. cbn in *. f_equal.
  induction H as [|e l He _ IH]; [done|].
  cbn. rewrite Rmax_left by done. f_equal. exact IH.
Qed.

Lemma clip_below_floor (lo : R) (l : list R) :
  Forall (fun e => e <= lo) l ->
  (fun e => Rmax e lo) <$> l = replicate (length l) lo.
Proof.
  induction 1 as [|e l He _ IH]; [done|].
  cbn. rewrite Rmax_right by done. f_equal. exact IH.
Qed.

(** X15.  The floor [1e-10].  When every [sigma] and [skew] is at least
    [1e-10] the clips change nothing: [SkewNormal.ln_likelihood] is the
    log-density of the parameters as given.  A skew that is nowhere above
    [1e-10], a negative one included, is not seen: replacing it by any other
    such array of the same shape and size leaves
    [SkewNormal.ln_likelihood] unchanged. *)
Theorem ln_likelihood_floor (self : ModelBase) (mpars : Params) (data : Data)
    (c : string) (x mu sg sk : Tensor) :
  coord_names self !! 0%nat = Some c ->
  Data_getitem data c = Ok x ->
  mpars !! (c, "mu"%string) = Some mu ->
  mpars !! (c, "sigma"%string) = Some sg ->
  mpars !! (c, "skew"%string) = Some sk ->
  (Forall (fun e => 1e-10 <= e) (elems sg) ->
   Forall (fun e => 1e-10 <= e) (elems sk) ->
   SkewNormal.ln_likelihood self mpars data
   = skewnorm_logpdf (Ok x) (Ok mu) (Ok sg) (Ok sk))
  /\ (forall sk',
        shape sk' = shape sk -> length (elems sk') = length (elems sk) ->
        Forall (fun e => e <= 1e-10) (elems sk) ->
        Forall (fun e => e <= 1e-10) (elems sk') ->
        SkewNormal.ln_likelihood self (<[(c, "skew"%string) := sk']> mpars) data
        = SkewNormal.ln_likelihood self mpars data).
Proof.
  intros Hc Hx Hmu Hsg Hsk. split.
  - intros Fsg Fsk.
    rewrite (SkewNormal_ln_likelihood_present self mpars data c x mu sg sk)
      by done.
    cbn [xp_clip Tensor_namespace]. unfold lift1. rewrite !bind_Ok.
    by rewrite !clip_above_floor.
  - intros sk' Ss Sl F F'.
    assert (tensor_map (fun e => Rmax e 1e-10) sk'
            = tensor_map (fun e => Rmax e 1e-10) sk) as Eclip.
    { unfold tensor_map. rewrite Ss. f_equal.
      by rewrite !clip_below_floor, Sl. }
    set (mpars' := <[(c, "skew"%string) := sk']> mpars).
    assert (mpars' !! (c, "mu"%string) = Some mu) as Hmu'
      by (unfold mpars'; etrans; [apply lookup_insert_ne; by intros [= ?] | done]).
    assert (mpars' !! (c, "sigma"%string) = Some sg) as Hsg'
      by (unfold mpars'; etrans; [apply lookup_insert_ne; by intros [= ?] | done]).
    assert (mpars' !! (c, "skew"%string) = Some sk') as Hsk'
      by (unfold mpars'; apply lookup_insert_eq).
    rewrite (SkewNormal_ln_likelihood_present self mpars' data c x mu sg sk'),
      (SkewNormal_ln_likelihood_present self mpars data c x mu sg sk) by done.
    cbn [xp_clip Tensor_namespace]. unfold lift1. rewrite !bind_Ok. by rewrite Eclip.
Qed.

Lemma ln_likelihood_floor_witness :
  SkewNormal.ln_likelihood example_model
    (<[("phi2", "skew")%string := mkTensor [1%nat] [-3]]>
       (<[("phi2", "skew")%string := mkTensor [1%nat] [0]]> example_mpars))
    (example_center "phi2")
  = SkewNormal.ln_likelihood example_model
      (<[("phi2", "skew")%string := mkTensor [1%nat] [0]]> example_mpars)
      (example_center "phi2").
Proof.
  destruct (ln_likelihood_floor example_model
              (<[("phi2", "skew")%string := mkTensor [1%nat] [0]]> example_mpars)
              (example_center "phi2") "phi2"
              (mkTensor [1%nat] [2]) (mkTensor [1%nat] [2])
              (mkTensor [1%nat] [0]) (mkTensor [1%nat] [0]))
    as [_ H]; try reflexivity.
  apply (H (mkTensor [1%nat] [-3])); try reflexivity.
  - cbn [elems]. constructor; [cbn beta; lra | constructor].
  - cbn [elems]. constructor; [cbn beta; lra | constructor].
Defined.

Lemma broadcast_shapes_mismatch (n m : nat) :
  n <> m -> n <> 1%nat -> m <> 1%nat -> broadcast_shapes [n] [m] = None.
Proof.
  intros Hnm Hn Hm. unfold broadcast_shapes. cbn. unfold broadcast_dim.
  by rewrite !decide_False.
Qed.

Lemma binop_mismatch (f : R -> R -> R) (n m : nat) (x y : Tensor) :
  shape x = [n] -> shape y = [m] -> n <> m -> n <> 1%nat -> m <> 1%nat ->
  binop f x y = Raise RuntimeError.
Proof.
  intros Sx Sy Hnm Hn Hm. unfold binop, broadcast2.
  by rewrite Sx, Sy, broadcast_shapes_mismatch.
Qed.

(** X16.  Arrays that do not broadcast.  When the data column has [n]
    samples and [mu] has [m] elements, with [n] and [m] different and
    neither equal to one, the first subtraction [value - loc] fails and
    [ln_likelihood] raises [RuntimeError], for the truncated model too when
    the coordinate has bounds. *)
Theorem ln_likelihood_shape_mismatch (self : ModelBase) (mpars : Params)
    (data : Data) (c : string) (x mu sg sk : Tensor) (n m : nat) :
  coord_names self !! 0%nat = Some c ->
  Data_getitem data c = Ok x ->
  mpars !! (c, "mu"%string) = Some mu ->
  mpars !! (c, "sigma"%string) = Some sg ->
  mpars !! (c, "skew"%string) = Some sk ->
  shape x = [n] -> shape mu = [m] -> n <> m -> n <> 1%nat -> m <> 1%nat ->
  SkewNormal.ln_likelihood self mpars data = Raise RuntimeError
  /\ (forall a b, coord_bounds self !! c = Some (a, b) ->
      TruncatedSkewNormal.ln_likelihood self mpars data = Raise RuntimeError).
Proof.
  intros Hc Hx Hmu Hsg Hsk Sx Sm Hnm Hn Hm.
  assert (forall sigma skew, skewnorm_logpdf (Ok x) (Ok mu) sigma skew
                             = Raise RuntimeError) as E.
  { intros sigma skew. unfold skewnorm_logpdf, norm_logpdf.
    cbn [add sub mul div pow xp_log xp_erf asarray Tensor_namespace].
    change (lift2 Rminus (Ok x) (Ok mu)) with (binop Rminus x mu).
    rewrite (binop_mismatch Rminus n m x mu) by done. reflexivity. }
  split.
  - rewrite (SkewNormal_ln_likelihood_present self mpars data c x mu sg sk)
      by done.
    apply E.
  - intros a b Hb.
    rewrite (TruncatedSkewNormal_ln_likelihood_present self mpars data c x mu
               sg sk a b) by done.
    unfold truncatedskewnorm_logpdf. rewrite E. reflexivity.
Qed.

Lemma ln_likelihood_shape_mismatch_witness :
  SkewNormal.ln_likelihood example_model
    (<[("phi2", "mu")%string := mkTensor [3%nat] [1; 2; 3]]> example_mpars)
    example_track
  = Raise RuntimeError.
Proof.
  apply (ln_likelihood_shape_mismatch example_model
           (<[("phi2", "mu")%string := mkTensor [3%nat] [1; 2; 3]]> example_mpars)
           example_track "phi2"
           (mkTensor [2%nat] [2; 3]) (mkTensor [3%nat] [1; 2; 3])
           (mkTensor [1%nat] [0]) (mkTensor [1%nat] [1]) 2 3);
    try reflexivity; lia.
Defined.

(** ** Which prediction meets which target *)

(** Lookup in a concatenation of chunks of one length [len]. *)
Lemma lookup_flat_map_uniform {A B : Type} (h : A -> list B) (l : list A)
    (len i r : nat) (a : A) :
  (forall a', a' ∈ l -> length (h a') = len) ->
  l !! i = Some a -> (r < len)%nat ->
  flat_map h l !! (i * len + r)%nat = h a !! r.
Proof.
  revert i. induction l as [|a0 l IH]; intros i Hlen Hi Hr; [done|].
  cbn [flat_map]. destruct i as [|i].
  - cbn in Hi. injection Hi as ->. cbn [Nat.mul Nat.add].
    apply lookup_app_l. rewrite Hlen; [done | by left].
  - cbn in Hi.
    assert (length (h a0) = len) as Ha0 by (apply Hlen; by left).
    rewrite lookup_app_r by lia. rewrite Ha0.
    replace (S i * len + r - len)%nat with (i * len + r)%nat by lia.
    apply IH; [|done|done]. intros a' Ha'. apply Hlen. by right.
Qed.

Lemma length_flat_map_uniform {A B : Type} (h : A -> list B) (l : list A)
    (len : nat) :
  (forall a', a' ∈ l -> length (h a') = len) ->
  length (flat_map h l) = (length l * len)%nat.
Proof.
  induction l as [|a l IH]; intros H; [done|].
  cbn. rewrite length_app, (H a), IH; [lia | | by left].
  intros a' Ha'. apply H. by right.
Qed.

Lemma block_singleton (i : nat) (d : list R) (v : R) :
  d !! i = Some v -> block i 1 d = [v].
Proof.
  intros H. unfold block. rewrite Nat.mul_1_r.
  revert i H. induction d as [|x d IH]; intros [|i] H; try done.
  - cbn in H. injection H as ->. cbn. by rewrite take_0.
  - cbn in H. cbn. by apply IH.
Qed.

(** An array of [n] rows whose row [i] holds, for every [c] of [cs], the
    single element [g i c]: the element at row [i] and column [j]. *)
Lemma lookup_grid {A : Type} (g : nat -> A -> list R) (cs : list A)
    (n i j : nat) (c : A) (v : R) :
  (forall i' c', (i' < n)%nat -> c' ∈ cs -> length (g i' c') = 1%nat) ->
  (i < n)%nat -> cs !! j = Some c -> g i c = [v] ->
  flat_map (fun i' => flat_map (g i') cs) (seq 0 n) !! (i * length cs + j)%nat
  = Some v.
Proof.
  intros Hlen Hi Hj Hv.
  rewrite (lookup_flat_map_uniform _ (seq 0 n) (length cs) i j i).
  - replace j with (j * 1 + 0)%nat at 1 by lia.
    rewrite (lookup_flat_map_uniform (g i) cs 1 j 0 c); [by rewrite Hv | |done|lia].
    intros c' Hc'. by apply Hlen.
  - intros i' Hi'%elem_of_seq.
    rewrite (length_flat_map_uniform _ _ 1); [lia|].
    intros c' Hc'. apply Hlen; [lia | done].
  - apply lookup_seq. lia.
  - by eapply lookup_lt_Some.
Qed.

Lemma block_length_1 (i : nat) (d : list R) :
  (i < length d)%nat -> length (block i (numel []) d) = 1%nat.
Proof.
  intros H. unfold block. cbn [numel foldr].
  rewrite length_take, length_drop. lia.
Qed.

Lemma take_columns_lookup (n k : nat) (d : list R) (js : list nat)
    (i j idx : nat) (v : R) :
  length d = (n * k)%nat -> Forall (fun jc => (jc < k)%nat) js ->
  (i < n)%nat -> js !! j = Some idx -> d !! (i * k + idx)%nat = Some v ->
  exists r, take_columns (mkTensor [n; k] d) js = Ok r
            /\ elems r !! (i * length js + j)%nat = Some v.
Proof.
  intros Hd Hjs Hi Hj Hv. unfold take_columns. cbn [shape elems].
  assert (forallb (fun jc => (jc <? k)%nat) js = true) as ->.
  { apply forallb_forall. intros jc Hjc%list_elem_of_In.
    rewrite Forall_forall in Hjs. apply Nat.ltb_lt. auto. }
  eexists. split; [done|]. cbn [elems].
  apply (lookup_grid (fun i' jc => block (i' * k + jc) (numel []) d) js n i j idx).
  - intros i' jc Hi' Hjc. apply block_length_1.
    rewrite Forall_forall in Hjs. specialize (Hjs jc Hjc). nia.
  - done.
  - done.
  - by apply block_singleton.
Qed.

Lemma take_column_lookup (n k : nat) (d : list R) (i idx : nat) (r : Tensor) :
  length d = (n * k)%nat -> (i < n)%nat ->
  take_column (mkTensor [n; k] d) idx = Ok r ->
  elems r !! i = d !! (i * k + idx)%nat.
Proof.
  intros Hd Hi. unfold take_column. cbn [shape elems].
  destruct (idx <? k)%nat eqn:Hk; [|done]. apply Nat.ltb_lt in Hk.
  intros [= <-]. cbn [elems].
  destruct (d !! (i * k + idx)%nat) as [v|] eqn:Hv.
  - replace i with (i * 1 + 0)%nat at 1 by lia.
    rewrite (lookup_flat_map_uniform _ (seq 0 n) 1 i 0 i).
    + by rewrite (block_singleton _ _ v Hv).
    + intros i' Hi'%elem_of_seq. apply block_length_1. nia.
    + apply lookup_seq. lia.
    + lia.
  - apply lookup_ge_None in Hv. nia.
Qed.

Lemma stack1_lookup (n : nat) (cols : list Tensor) (i j : nat) (t : Tensor) (p : R) :
  Forall (fun t' => shape t' = [n] /\ length (elems t') = n) cols ->
  cols !! j = Some t -> elems t !! i = Some p ->
  exists c, stack1 cols = Ok c
            /\ shape c = [n; length cols]
            /\ elems c !! (i * length cols + j)%nat = Some p.
Proof.
  intros Hs Hj Hp.
  assert (cols <> []) as Hne by (intros ->; done).
  rewrite Forall_forall in Hs.
  assert (i < n)%nat as Hi.
  { destruct (Hs t) as [_ <-]; [by eapply list_elem_of_lookup_2|].
    by eapply lookup_lt_Some. }
  destruct cols as [|t0 cols]; [done|]. unfold stack1.
  assert (forallb (fun t' => bool_decide (shape t' = shape t0)) (t0 :: cols) = true)
    as ->.
  { apply forallb_forall. intros t' Ht'%list_elem_of_In.
    apply bool_decide_eq_true.
    destruct (Hs t' Ht') as [-> _]. destruct (Hs t0) as [-> _]; [by left | done]. }
  destruct (Hs t0) as [-> _]; [by left|].
  eexists. split; [done|]. split; [done|]. cbn [elems].
  apply (lookup_grid (fun i' t' => block i' (numel []) (elems t')) (t0 :: cols)
           n i j t).
  - intros i' t' Hi' Ht'. apply block_length_1. destruct (Hs t' Ht') as [_ ->]. done.
  - done.
  - done.
  - by apply block_singleton.
Qed.

Lemma mapM_Ok_lookup {A B : Type} (f : A -> result B) (l : list A) (k : list B)
    (j : nat) (x : A) :
  mapM f l = Ok k -> l !! j = Some x -> exists y, k !! j = Some y /\ f x = Ok y.
Proof.
  intros E Hx. apply mapM_Ok in E.
  destruct (Forall2_lookup_l _ _ _ _ _ E Hx) as (y & Hy & Ey). by exists y.
Qed.

Lemma index_of_lt (n : string) (l : list string) (j : nat) :
  index_of n l = Some j -> (j < length l)%nat.
Proof.
  unfold index_of. destruct (list_find _ l) as [[i x]|] eqn:E; [|done].
  intros [= <-]. apply list_find_Some in E as (Hi & _). by eapply lookup_lt_Some.
Qed.

(** What the construction with a float width stores, from a [center] that
    has one name per column. *)
Lemma ControlRegions_init_float (n k : nat) (d : list R) (nms : list string)
    (w lamda_ : R) (coord_name_ component_param_name_ : string)
    (self : ControlRegions) :
  ControlRegions_init (mkData (mkTensor [n; k] d) nms) (WidthFloat w) lamda_
    coord_name_ component_param_name_ = Ok self ->
  exists js a,
    mapM (fun key => of_option KeyError (index_of key nms))
      (filter (fun m => m <> coord_name_) nms) = Ok js
    /\ take_columns (mkTensor [n; k] d) js = Ok a
    /\ _y_names self = filter (fun m => m <> coord_name_) nms
    /\ _y self = _atleast_2d (squeeze a)
    /\ _w self = tensor_map (fun v => v * w) (ones_like (_y self))
    /\ component_param_name self = component_param_name_.
Proof.
  unfold ControlRegions_init. cbn [names array]. intros E.
  destruct (Data_getitems _ [coord_name_]) as [x|]; [|done].
  rewrite bind_Ok in E. cbv zeta in E.
  set (dep := filter (fun m => m <> coord_name_) nms) in *.
  unfold Data_getitems at 1 in E. cbn [names array] in E.
  destruct (mapM _ dep) as [js|] eqn:Ejs; [|done]. rewrite bind_Ok in E.
  destruct (take_columns _ js) as [a|] eqn:Ea; [|done]. rewrite !bind_Ok in E.
  cbn [array] in E. injection E as <-. exists js, a. by cbn.
Qed.

(** X17.  Which prediction meets which target.  After the construction
    with a float width [w] from a well-formed [center] of [n] control
    points (two or more, or a single dependent column), against a model
    that predicts [n] values for every dependent column: the penalty at
    control point [i] and dependent column [j] compares the model's
    prediction for that column at that point with the value of [center] in
    that column at that point, with width [1 * w]. *)
Theorem penalties_pair_prediction_with_target (n k : nat) (d : list R)
    (nms : list string) (w lamda_ : R) (coord_name_ component_param_name_ : string)
    (self : ControlRegions) (model : ModelAPI)
    (i j : nat) (name : string) (tcol tp : Tensor) (t p : R) :
  let center_ := mkData (mkTensor [n; k] d) nms in
  let cmpars := unpack_params model (forward model (_x self)) in
  length d = (n * k)%nat -> (length nms <= k)%nat ->
  ControlRegions_init center_ (WidthFloat w) lamda_ coord_name_
    component_param_name_ = Ok self ->
  (n <> 1%nat \/ length (_y_names self) = 1%nat) ->
  (forall name', name' ∈ _y_names self ->
     exists t', cmpars !! (name', component_param_name_) = Some t'
                /\ shape t' = [n] /\ length (elems t') = n) ->
  _y_names self !! j = Some name ->
  Data_getitem center_ name = Ok tcol -> elems tcol !! i = Some t ->
  cmpars !! (name, component_param_name_) = Some tp -> elems tp !! i = Some p ->
  exists cmp_arr pdf,
    control_predictions self model = Ok cmp_arr
    /\ penalties cmp_arr (_y self) (_w self) = Ok pdf
    /\ elems pdf !! (i * length (_y_names self) + j)%nat
       = Some (elem_penalty p t (1 * w)).
Proof.
  intros center_ cmpars Hd Hk E Hnf Hp Hj Htcol Ht Htp Hpi.
  destruct (ControlRegions_init_float n k d nms w lamda_ coord_name_
              component_param_name_ self E) as (js & a & Ejs & Ea & Ey & Sy & Sw & Ecp).
  set (dep := filter (fun m => m <> coord_name_) nms) in *.
  set (F := length (_y_names self)).
  assert (length js = F) as Ljs.
  { unfold F. rewrite Ey. symmetry. apply mapM_Ok in Ejs.
    by eapply Forall2_length. }
  assert (i < n)%nat as Hi.
  { destruct (Hp name) as (t' & Et' & _ & Lt'); [by eapply list_elem_of_lookup_2|].
    rewrite Htp in Et'. injection Et' as <-. rewrite <- Lt'.
    by eapply lookup_lt_Some. }
  (* the column index of [name] *)
  rewrite Ey in Hj.
  destruct (mapM_Ok_lookup _ _ _ _ _ Ejs Hj) as (idx & Hidx & Eidx).
  destruct (index_of name nms) as [idx'|] eqn:Eio; [|done].
  cbn in Eidx. injection Eidx as ->.
  (* the target *)
  unfold Data_getitem in Htcol. subst center_. cbn [names array] in Htcol.
  rewrite Eio in Htcol. cbn [of_option] in Htcol. rewrite bind_Ok in Htcol.
  rewrite (take_column_lookup n k d i idx tcol Hd Hi Htcol) in Ht.
  assert (Forall (fun jc => (jc < k)%nat) js) as Hjs.
  { apply Forall_forall. intros jc Hjc.
    apply list_elem_of_lookup in Hjc as [j' Hj'].
    apply mapM_Ok in Ejs.
    destruct (Forall2_lookup_r _ _ _ _ _ Ejs Hj') as (key & _ & Ekey).
    destruct (index_of key nms) as [jc'|] eqn:Ek; [|done].
    cbn in Ekey. injection Ekey as ->. apply index_of_lt in Ek. lia. }
  destruct (take_columns_lookup n k d js i j idx t Hd Hjs Hi Hidx Ht)
    as (a' & Ea' & Hat).
  rewrite Ea in Ea'. injection Ea' as <-. rewrite Ljs in Hat.
  assert (shape a = [n; F]) as Sa.
  { unfold take_columns in Ea. cbn [shape] in Ea.
    destruct (forallb _ js); [|done]. injection Ea as <-. cbn. by rewrite Ljs. }
  assert (shape (_y self) = [n; F]) as Shy.
  { rewrite Sy. destruct a as [sa ea]. cbn in Sa. subst sa.
    rewrite atleast_2d_squeeze_shape. apply decide_False. fold F in Hnf. tauto. }
  assert (elems (_y self) = elems a) as Ely.
  { rewrite Sy. by rewrite elems_atleast_2d. }
  (* the predictions *)
  unfold control_predictions. cbv zeta. fold cmpars. rewrite Ecp, Ey.
  destruct (mapM (fun n0 => of_option KeyError (cmpars !! (n0, component_param_name_)))
              dep) as [cols|e] eqn:Ecols.
  2:{ apply mapM_Raise in Ecols as (x & Hx & Ex).
      destruct (Hp x) as (t' & Et' & _); [by rewrite Ey|]. by rewrite Et' in Ex. }
  assert (length cols = F) as Lcols.
  { unfold F. rewrite Ey. symmetry. apply mapM_Ok in Ecols.
    by eapply Forall2_length. }
  assert (Forall (fun t' => shape t' = [n] /\ length (elems t') = n) cols) as Hcols.
  { apply Forall_forall. intros c Hc.
    apply list_elem_of_lookup in Hc as [j' Hj'].
    pose proof Ecols as Ec2. apply mapM_Ok in Ec2.
    destruct (Forall2_lookup_r _ _ _ _ _ Ec2 Hj') as (key & Hkey & Ekey).
    destruct (Hp key) as (t' & Et' & St' & Lt').
    { rewrite Ey. by eapply list_elem_of_lookup_2. }
    rewrite Et' in Ekey. cbn in Ekey. injection Ekey as <-. done. }
  destruct (mapM_Ok_lookup _ _ _ _ _ Ecols Hj) as (tp' & Htp' & Etp').
  rewrite Htp in Etp'. cbn in Etp'. injection Etp' as <-.
  destruct (stack1_lookup n cols i j tp p Hcols Htp' Hpi) as (c & Ec & Sc & Hc).
  rewrite bind_Ok, Ec. rewrite Lcols in Sc, Hc.
  exists c. eexists. split; [done|].
  rewrite penalties_same.
  - split; [done|]. cbn [elems]. apply pen_list_lookup; [done | by rewrite Ely |].
    rewrite Sw. unfold ones_like, tensor_map. cbn [elems].
    by rewrite !list_lookup_fmap, Ely, Hat.
  - congruence.
  - rewrite Sw. cbn. congruence.
Qed.

Lemma penalties_pair_prediction_with_target_witness :
  exists self cmp_arr pdf,
    ControlRegions_init example_track (WidthFloat 0.5) 0.05 "phi1" "mu" = Ok self
    /\ control_predictions self example_track_model = Ok cmp_arr
    /\ penalties cmp_arr (_y self) (_w self) = Ok pdf
    /\ elems pdf !! 1%nat = Some (elem_penalty 4 3 (1 * 0.5)).
Proof.
  destruct (ControlRegions_init_float_shape 2 2 [10; 2; 20; 3]
              ["phi1"; "phi2"]%string 0.5 0.05 "phi1" "mu")
    as (self & E & _); [cbn; lia | by left |].
  destruct (ControlRegions_init_float 2 2 [10; 2; 20; 3] ["phi1"; "phi2"]%string
              0.5 0.05 "phi1" "mu" self E) as (_ & _ & _ & _ & Ey & _).
  assert (_y_names self = ["phi2"%string]) as Ey' by (rewrite Ey; reflexivity).
  destruct (penalties_pair_prediction_with_target 2 2 [10; 2; 20; 3]
              ["phi1"; "phi2"]%string 0.5 0.05 "phi1" "mu" self
              example_track_model 1 0 "phi2"
              (mkTensor [2%nat] [2; 3]) (mkTensor [2%nat] [2; 4]) 3 4)
    as (c & pdf & Hc & Hp & He).
  - reflexivity.
  - cbn. lia.
  - exact E.
  - left. lia.
  - intros name Hn. rewrite Ey' in Hn.
    apply elem_of_cons in Hn as [-> | Hn]; [|by apply elem_of_nil in Hn].
    exists (mkTensor [2%nat] [2; 4]). split; [|done]. apply lookup_singleton_eq.
  - by rewrite Ey'.
  - reflexivity.
  - reflexivity.
  - apply lookup_singleton_eq.
  - reflexivity.
  - exists self, c, pdf. rewrite Ey' in He. done.
Defined.

(** X18.  Widths given per column.  When [width] is a [Data] laid out like
    [center] (as many rows, a name per column, every dependent column of
    [center] among its names) the construction succeeds and the stored
    widths have the shape of the stored targets. *)
Theorem ControlRegions_init_width_data (n k kw : nat) (d dw : list R)
    (nms wnms : list string) (lamda_ : R)
    (coord_name_ component_param_name_ : string) :
  (length nms <= k)%nat -> (length wnms <= kw)%nat -> coord_name_ ∈ nms ->
  (forall m, m ∈ nms -> m <> coord_name_ -> m ∈ wnms) ->
  exists self,
    ControlRegions_init (mkData (mkTensor [n; k] d) nms)
      (WidthData (mkData (mkTensor [n; kw] dw) wnms)) lamda_ coord_name_
      component_param_name_ = Ok self
    /\ shape (_w self) = shape (_y self).
Proof.
  intros Hk Hkw Hc Hw. unfold ControlRegions_init.
  destruct (Data_getitems_shape n k d nms [coord_name_] Hk) as (x & Ex & _).
  { by constructor. }
  destruct (Data_getitems_shape n k d nms
              (filter (fun m => m <> coord_name_) nms) Hk) as (cy & Ey & Sy & _).
  { apply Forall_forall. by intros m [_ Hm]%list_elem_of_filter. }
  destruct (Data_getitems_shape n kw dw wnms
              (filter (fun m => m <> coord_name_) nms) Hkw) as (wd & Ew & Sw & _).
  { apply Forall_forall. intros m [Hne Hm]%list_elem_of_filter. by apply Hw. }
  cbn [names]. rewrite Ex, bind_Ok. cbv zeta.
  rewrite Ey, !bind_Ok, Ew, !bind_Ok. eexists. split; [done|]. cbn.
  destruct (array cy) as [s e]. destruct (array wd) as [s' e'].
  cbn in Sy, Sw. subst s s'.
  by rewrite !atleast_2d_squeeze_shape.
Qed.

Lemma ControlRegions_init_width_data_witness :
  exists self,
    ControlRegions_init example_track
      (WidthData (mkData (mkTensor [2; 2]%nat [0; 0.5; 0; 0.25])
                    ["phi1"; "phi2"]%string))
      0.05 "phi1" "mu" = Ok self
    /\ shape (_w self) = shape (_y self).
Proof.
  apply (ControlRegions_init_width_data 2 2 2 [10; 2; 20; 3] [0; 0.5; 0; 0.25]
           ["phi1"; "phi2"]%string ["phi1"; "phi2"]%string 0.05 "phi1" "mu").
  - cbn. lia.
  - cbn. lia.
  - by left.
  - by intros m Hm _.
Defined.
